(** * MelPE / torchfcpe: the F0 ensemble decoder and the [infer] pipeline

    A shallow embedding of [src/torchfcpe/models_infer.py]:
    - [ensemble_f0], the dynamic-programming decoder that merges several
      per-frame pitch estimates (one per key shift), and
    - [InferCFNaiveMelPE.infer], the post-processing pipeline around it;
    - the functions that spawn a model from a checkpoint or an ONNX file,
      as far as this file decides what they do (their gates and the
      overwriting of the dropouts); the helpers of other modules they call
      are parameters.

    Numbers.  Tensors hold floats; they are modelled by real numbers [R],
    so the arithmetic of the code is read as exact arithmetic.  Comparisons
    ([<=], [>], [==]) are the decidable comparisons on [R], a boolean mask
    multiplied with a number is [b2r].  The code itself computes
    [tta_uv_penalty ** 2] and [2 ** (key_shift / 12)] as Python floats, which
    raise [OverflowError] beyond the range of a double, and its tensors hold
    float32 numbers, which become [inf] beyond about 3.4e38.  The real numbers
    show none of this: [penalty_in_range] and [key_shifts_in_range] delimit
    the penalty bases and key shifts for which these numbers stay within the
    range of float32, and several statements below carry them as hypotheses.
    Rounding is not modelled either: a minimum of the exact sums is a
    minimum of the rounded sums only up to the rounding error
    ([near_optimal]).

    Shapes.  [ensemble_f0] receives tensors of shape [(B, T, 1)].  The test
    [if notes[:, t, c] <= 0:] and the assignment
    [f0_result[:, t - i] = f0s[:, t - i, min_indices]] only make sense for
    [B = 1] (for [B > 1] the first raises on an ambiguous truth value and the
    second on a shape mismatch, so that [ensemble_f0] returns for no batch of
    more than one item).  What is modelled is the batch of one item: one
    hypothesis is a [list R] over the frames, and a tensor of shape
    [(1, T, C)] is a list of [T] rows of [C] numbers.  Every statement below
    is a statement about [B = 1].

    Frequencies are never negative (a raw estimate is [0] or a positive
    number of Hz); [torch.log2] is only evaluated at positive numbers, where
    it coincides with [ln x / ln 2].

    Effects.  [ensemble_f0] overwrites the entries of the list [f0_list] it
    is given; [infer] sorts the list object [tta_key_shifts] in place and
    invokes the pitch extractor.  [ensemble_f0] is a function of the contents
    of its lists, with [f0_list_after] for the contents it leaves behind;
    [infer] is a computation over a world of list objects and extractor
    invocations that may raise.  Key shifts are rationals where they are
    sorted and compared, and reals inside [ensemble_f0]. *)

From Stdlib Require Import String.
From Stdlib Require Import Reals Lra Lia List Bool Arith ZArith QArith Qreals.
From Stdlib Require Import Sorted Permutation.
Import ListNotations.
Local Open Scope R_scope.

(** ** Exceptions and results *)

Inductive exn : Type :=
| AssertionError
| TypeError
| IndexError
| RuntimeError
| KeyError.

Inductive result (A : Type) : Type :=
| Ok (a : A)
| Raise (e : exn).

Arguments Ok {A} a.
Arguments Raise {A} e.

(** ** Masks *)

Definition b2r (b : bool) : R := if b then 1 else 0.

Definition le0 (x : R) : bool := if Rle_dec x 0 then true else false.
Definition gt0 (x : R) : bool := if Rgt_dec x 0 then true else false.
Definition eq0 (x : R) : bool := if Req_dec_T x 0 then true else false.

(** ** The note transform (lines 22 to 26 of [ensemble_f0]) *)

Definition log2 (x : R) : R := ln x / ln 2.

(** [f0 / (2 ** (key_shift / 12))] *)
Definition compensate (key_shift f0 : R) : R := f0 / Rpower 2 (key_shift / 12).

(** [f0 + (f0 == 0) * 1e-6], [torch.log2(f0 / 440) * 12 + 69], [note[note < 0] = 0] *)
Definition to_note (f0 : R) : R :=
  let f0' := f0 + b2r (eq0 f0) * 1e-6 in
  let note := log2 (f0' / 440) * 12 + 69 in
  if Rlt_dec note 0 then 0 else note.

(** ** Tensors of shape (1, T, C) *)

(** [torch.cat(cols, dim=-1)] on tensors of shape [(1, T, 1)]: the result has
    one row per frame and one column per element of [cols]; an empty list
    and columns of different lengths are refused.  For columns of different
    lengths the exception is [RuntimeError]; for the empty list its class
    depends on the version of torch ([RuntimeError] in the older ones,
    [ValueError] in the newer ones), and no statement below depends on which
    it is. *)
Definition cat_last (cols : list (list R)) : result (list (list R)) :=
  match cols with
  | [] => Raise RuntimeError
  | col0 :: rest =>
      if forallb (fun col => Nat.eqb (length col) (length col0)) rest
      then Ok (map (fun t => map (fun col => nth t col 0) cols)
                   (seq 0 (length col0)))
      else Raise RuntimeError
  end.

(** [torch.min(v, dim=-1)]: the minimum and the index of its first
    occurrence. *)
Fixpoint torch_min (v : list R) : R * nat :=
  match v with
  | [] => (0, 0%nat)
  | x :: v' =>
      match v' with
      | [] => (x, 0%nat)
      | _ :: _ =>
          let (m, i) := torch_min v' in
          if Rle_dec x m then (x, 0%nat) else (m, S i)
      end
  end.

Definition torch_argmin (v : list R) : nat := snd (torch_min v).

(** ** The recurrence (lines 33 to 70) *)

(** [torch.pow(notes[:, t - 1, :] - notes[:, t, c], 2) * is_voiced - 0.5]
    followed by [l2_distance *= l2_distance > 0], at one predecessor. *)
Definition l2_distance (prev cur : R) : R :=
  let d := (prev - cur) ^ 2 * b2r (gt0 prev) - 0.5 in
  d * b2r (gt0 d).

(** One entry of the tensor minimised at lines 65 to 68:
    [dp[:, t - 1, :] + l2_distance + (~is_voiced) * uv_penalty * 2]. *)
Definition voiced_candidate (uv_penalty cur : R) (dn : R * R) : R :=
  let (d, prev) := dn in
  d + l2_distance prev cur + b2r (negb (gt0 prev)) * uv_penalty * 2.

Definition voiced_candidates (uv_penalty : R) (notes_prev dp_prev : list R)
    (cur : R) : list R :=
  map (voiced_candidate uv_penalty cur) (combine dp_prev notes_prev).

(** One entry of the tensor minimised at lines 49 to 52:
    [dp[:, t - 1, :] + 1 * uv_penalty]. *)
Definition unvoiced_candidates (uv_penalty : R) (dp_prev : list R) : list R :=
  map (fun d => d + 1 * uv_penalty) dp_prev.

(** The body of the loop over [c]: the pair [(dp[:, t, c], backtrack[:, t, c])]. *)
Definition dp_step (uv_penalty : R) (notes_prev dp_prev : list R) (cur : R)
    : R * nat :=
  if Rle_dec cur 0
  then torch_min (unvoiced_candidates uv_penalty dp_prev)
  else torch_min (voiced_candidates uv_penalty notes_prev dp_prev cur).

(** [dp[:, 0, :] = (notes[:, 0, :] <= 0) * uv_penalty] *)
Definition dp_init (uv_penalty : R) (row0 : list R) : list R :=
  map (fun n => b2r (le0 n) * uv_penalty) row0.

(** The loop over [t]: the rows [1 .. T-1] of [dp] and of [backtrack]. *)
Fixpoint forward (uv_penalty : R) (notes_prev dp_prev : list R)
    (rows : list (list R)) : list (list R) * list (list nat) :=
  match rows with
  | [] => ([], [])
  | cur :: rows' =>
      let r := map (dp_step uv_penalty notes_prev dp_prev) cur in
      let (dps, bts) := forward uv_penalty cur (map fst r) rows' in
      (map fst r :: dps, map snd r :: bts)
  end.

(** Both tables.  Row 0 of [dp] is [dp_init], row 0 of [backtrack] stays at
    the zeros of [torch.zeros_like]; indexing frame 0 of a tensor without
    frames raises. *)
Definition dp_tables (uv_penalty : R) (notes : list (list R))
    : result (list (list R) * list (list nat)) :=
  match notes with
  | [] => Raise IndexError
  | row0 :: rows =>
      let (dps, bts) := forward uv_penalty row0 (dp_init uv_penalty row0) rows in
      Ok (dp_init uv_penalty row0 :: dps, map (fun _ => 0%nat) row0 :: bts)
  end.

(** ** Backtracking (lines 72 to 78) *)

(** The loop [for i in range(0, t + 1)], by the number [k = t + 1 - i] of
    frames that are still to be written: frame [k - 1] receives
    [f0s[:, k - 1, min_indices]], then [min_indices] becomes
    [backtrack[:, k - 1, min_indices]].  The indices are always in range
    (lemma [backtrack_path_in_range]), so the defaults of [nth] are never
    used. *)
Fixpoint backtrack_loop (f0s : list (list R)) (backtrack : list (list nat))
    (k : nat) (min_indices : nat) : list R :=
  match k with
  | O => []
  | S k' =>
      backtrack_loop f0s backtrack k'
        (nth min_indices (nth k' backtrack []) 0%nat)
      ++ [nth min_indices (nth k' f0s []) 0]
  end.

(** The hypothesis index that the loop uses at each of the frames
    [0 .. k-1]. *)
Fixpoint backtrack_path (backtrack : list (list nat)) (k : nat)
    (min_indices : nat) : list nat :=
  match k with
  | O => []
  | S k' =>
      backtrack_path backtrack k'
        (nth min_indices (nth k' backtrack []) 0%nat)
      ++ [min_indices]
  end.

(** ** [ensemble_f0] *)

(** The first loop stores the compensated tensor back into [f0_list]
    ([f0_list[idx] = f0]); [zip] stops at the shorter list, so entries beyond
    the key shifts stay as they are. *)
Definition compensated (f0_list : list (list R)) (key_shift_list : list R)
    : list (list R) :=
  map (fun fk => map (compensate (snd fk)) (fst fk))
      (combine f0_list key_shift_list).

Definition f0_list_after (f0_list : list (list R)) (key_shift_list : list R)
    : list (list R) :=
  compensated f0_list key_shift_list
  ++ skipn (length (compensated f0_list key_shift_list)) f0_list.

(** The value returned by [ensemble_f0].  The caller's [f0_list] holds
    [f0_list_after f0_list key_shift_list] when the call returns or raises. *)
Definition ensemble_f0 (f0_list : list (list R)) (key_shift_list : list R)
    (tta_uv_penalty : R) : result (list R) :=
  let note_list := map (map to_note) (compensated f0_list key_shift_list) in
  let uv_penalty := tta_uv_penalty ^ 2 in
  match cat_last note_list with
  | Raise e => Raise e
  | Ok notes =>
      match dp_tables uv_penalty notes with
      | Raise e => Raise e
      | Ok (dp, backtrack) =>
          match cat_last (f0_list_after f0_list key_shift_list) with
          | Raise e => Raise e
          | Ok f0s =>
              let t := (length f0s - 1)%nat in
              let min_indices := torch_argmin (nth t dp []) in
              Ok (backtrack_loop f0s backtrack (t + 1) min_indices)
          end
      end
  end.

(** ** The penalty model of the decoder, path by path

    A path through the frames [0 .. t] is a list [p] of hypothesis indices,
    [nth i p 0] being the hypothesis chosen on frame [i].  [initial_penalty]
    and [arrival_penalty] are what the code charges, read off line 41 and
    the two branches of the loop (lemmas [dp_at_0] and [candidates_nth]
    relate them to the tables); the model that the specification states is
    [spec_arrival_penalty] below. *)

Definition note_at (notes : list (list R)) (t c : nat) : R :=
  nth c (nth t notes []) 0.

(** Penalty of starting on a candidate with note [n]. *)
Definition initial_penalty (uv_penalty n : R) : R :=
  if Rle_dec n 0 then uv_penalty else 0.

(** Penalty of arriving on a candidate with note [cur] from a predecessor
    with note [prev], as the code charges it: one [uv_penalty] for an
    unvoiced candidate (line 50); for a voiced one (lines 59 to 66) the
    squared distance beyond the dead zone of [0.5] after a voiced
    predecessor, and [2 * uv_penalty] after an unvoiced one, for which
    [is_voiced] zeroes the distance. *)
Definition arrival_penalty (uv_penalty prev cur : R) : R :=
  if Rle_dec cur 0 then uv_penalty
  else if Rgt_dec prev 0 then Rmax 0 ((prev - cur) ^ 2 - 0.5)
  else 2 * uv_penalty.

(** Accumulated penalty of the path [p] over the frames [0 .. t]. *)
Fixpoint path_penalty (uv_penalty : R) (notes : list (list R)) (p : list nat)
    (t : nat) : R :=
  match t with
  | O => initial_penalty uv_penalty (note_at notes 0 (nth 0 p 0%nat))
  | S t' =>
      path_penalty uv_penalty notes p t'
      + arrival_penalty uv_penalty (note_at notes t' (nth t' p 0%nat))
                        (note_at notes t (nth t p 0%nat))
  end.

(** [p] chooses one of [C] hypotheses on each of the frames [0 .. t]. *)
Definition path_upto (C t : nat) (p : list nat) : Prop :=
  length p = S t /\ forall i, (i <= t)%nat -> (nth i p 0 < C)%nat.

(** A path over all [T] frames whose accumulated penalty is within [eps] of
    that of every other such path.  The path that [ensemble_f0] decodes is
    one for [eps = 0]; a minimisation whose sums carry rounding errors finds
    one for an [eps] of the size of these errors. *)
Definition near_optimal (uv_penalty : R) (notes : list (list R)) (C T : nat)
    (eps : R) (p : list nat) : Prop :=
  path_upto C (T - 1) p
  /\ forall q, path_upto C (T - 1) q ->
       path_penalty uv_penalty notes p (T - 1)
       <= path_penalty uv_penalty notes q (T - 1) + eps.

(** The transition cost into a voiced candidate from an unvoiced
    predecessor as section 4.2 of the specification words it: the dead-zone
    term plus [2 * uv_penalty]. *)
Definition spec_unvoiced_to_voiced_cost (uv_penalty prev cur : R) : R :=
  Rmax 0 ((prev - cur) ^ 2 - 0.5) + 2 * uv_penalty.

(** The penalty model as section 4.2 of the specification states it:
    [uv_penalty] for arriving at an unvoiced candidate, the dead-zone term
    for arriving at a voiced candidate from a voiced predecessor, and the
    dead-zone term plus [2 * uv_penalty] from an unvoiced one; the start is
    charged as in [initial_penalty]. *)
Definition spec_arrival_penalty (uv_penalty prev cur : R) : R :=
  if Rle_dec cur 0 then uv_penalty
  else if Rgt_dec prev 0 then Rmax 0 ((prev - cur) ^ 2 - 0.5)
  else spec_unvoiced_to_voiced_cost uv_penalty prev cur.

Fixpoint spec_path_penalty (uv_penalty : R) (notes : list (list R))
    (p : list nat) (t : nat) : R :=
  match t with
  | O => initial_penalty uv_penalty (note_at notes 0 (nth 0 p 0%nat))
  | S t' =>
      spec_path_penalty uv_penalty notes p t'
      + spec_arrival_penalty uv_penalty (note_at notes t' (nth t' p 0%nat))
                             (note_at notes t (nth t p 0%nat))
  end.

(** How often [uv_penalty] is charged along [p] over the frames [0 .. t]:
    once for every frame with an unvoiced note, twice for every switch from
    an unvoiced note to a voiced one. *)
Definition initial_charges (n : R) : nat := if Rle_dec n 0 then 1 else 0.

Definition arrival_charges (prev cur : R) : nat :=
  if Rle_dec cur 0 then 1 else if Rgt_dec prev 0 then 0 else 2.

Fixpoint unvoiced_charges (notes : list (list R)) (p : list nat) (t : nat)
    : nat :=
  match t with
  | O => initial_charges (note_at notes 0 (nth 0 p 0%nat))
  | S t' =>
      unvoiced_charges notes p t'
      + arrival_charges (note_at notes t' (nth t' p 0%nat))
                        (note_at notes t (nth t p 0%nat))
  end.

(** Number of voiced (nonzero) frames of a frequency sequence. *)
Definition voiced_frames (f0 : list R) : nat :=
  length (filter (fun x => negb (eq0 x)) f0).

(** The notes which [ensemble_f0] compares, one row per frame. *)
Definition notes_of (f0_list : list (list R)) (key_shift_list : list R)
    : result (list (list R)) :=
  cat_last (map (map to_note) (compensated f0_list key_shift_list)).

(** The path which [ensemble_f0] backtracks, for the notes [notes]. *)
Definition decoded_path (tta_uv_penalty : R) (notes : list (list R))
    : list nat :=
  match dp_tables (tta_uv_penalty ^ 2) notes with
  | Raise _ => []
  | Ok (dp, backtrack) =>
      backtrack_path backtrack (length notes)
        (torch_argmin (nth (length notes - 1) dp []))
  end.

(** ** Reading the tables and the input *)

Definition dp_at (dp : list (list R)) (t c : nat) : R := nth c (nth t dp []) 0.

Definition bt_at (bt : list (list nat)) (t c : nat) : nat :=
  nth c (nth t bt []) 0%nat.

(** The tensor which [dp_step] minimises for a candidate with note [cur]. *)
Definition candidates (uv_penalty : R) (notes_prev dp_prev : list R) (cur : R)
    : list R :=
  if Rle_dec cur 0 then unvoiced_candidates uv_penalty dp_prev
  else voiced_candidates uv_penalty notes_prev dp_prev cur.

(** Input on which [ensemble_f0] returns: at least one hypothesis and one key
    shift, and every hypothesis has the same positive number [T] of
    frames. *)
Definition well_formed (f0_list : list (list R)) (key_shift_list : list R)
    (T : nat) : Prop :=
  f0_list <> [] /\ key_shift_list <> [] /\ (0 < T)%nat
  /\ Forall (fun f0 => length f0 = T) f0_list.

(** ** The range of the floating-point numbers *)

(** A penalty base for [T] frames whose penalties stay within float32.  A
    path is charged [uv_penalty] at most [2 * T] times (once for the start or
    the arrival at an unvoiced frame, twice for a switch to a voiced one), and
    [1e38] is below the largest float32 number (about 3.4e38), beyond which
    [uv_penalty] or a sum of penalties is [inf] in the tensors of the code
    (and [tta_uv_penalty ** 2] raises [OverflowError] beyond the range of a
    double); the real numbers of this file do not show that. *)
Definition penalty_in_range (tta_uv_penalty : R) (T : nat) : Prop :=
  tta_uv_penalty ^ 2 * INR (2 * T) <= 1e38.

(** Key shifts of at most a hundred octaves either way: [2 ** (key_shift / 12)]
    is then a float32 number that is neither [0] nor [inf] (and the power
    does not raise [OverflowError], as it does from 12288 semitones on). *)
Definition key_shifts_in_range (key_shift_list : list R) : Prop :=
  Forall (fun key_shift => -1200 <= key_shift <= 1200) key_shift_list.

(** ** [InferCFNaiveMelPE.infer] *)

(** The state which [infer] can touch: the Python list objects that callers
    pass as [tta_key_shifts], by address, and the record of the invocations
    of the pitch extractor ([self.__call__]), oldest first. *)
Record world : Type := {
  lists : nat -> list Q;
  calls : list Q
}.

(** Computations that read and write the world and may raise. *)
Definition M (A : Type) : Type := world -> result A * world.

Definition ret {A : Type} (a : A) : M A := fun w => (Ok a, w).

Definition raise {A : Type} (e : exn) : M A := fun w => (Raise e, w).

Definition bind {A B : Type} (m : M A) (f : A -> M B) : M B :=
  fun w =>
    match m w with
    | (Ok a, w') => f a w'
    | (Raise e, w') => (Raise e, w')
    end.

Notation "'let*' x ':=' m 'in' k" := (bind m (fun x => k))
  (at level 10, x pattern, m at level 100, k at level 200).

Definition lift {A : Type} (r : result A) : M A := fun w => (r, w).

Definition read_list (addr : nat) : M (list Q) :=
  fun w => (Ok (lists w addr), w).

Definition write_list (addr : nat) (l : list Q) : M unit :=
  fun w =>
    (Ok tt,
     {| lists := fun a => if Nat.eqb a addr then l else lists w a;
        calls := calls w |}).

Definition py_assert (b : bool) : M unit :=
  if b then ret tt else raise AssertionError.

Fixpoint mapM {A B : Type} (f : A -> M B) (l : list A) : M (list B) :=
  match l with
  | [] => ret []
  | x :: l' =>
      let* y := f x in
      let* ys := mapM f l' in
      ret (y :: ys)
  end.

(** The module object: its [__call__] (mel extraction and the model, a
    function of the waveform, the sample rate, the decoder mode, the
    threshold and the key shift) and the entry
    [args_dict["model"]["f0_min"]] of its configuration, if present. *)
Record InferCFNaiveMelPE : Type := {
  call : list R -> R -> String.string -> R -> Q -> list R;
  args_model_f0_min : option R
}.

(** The arguments of [infer]; [tta_key_shifts] is the address of the list
    object. *)
Record infer_args : Type := {
  wav : list R;
  sr : R;
  decoder_mode : String.string;
  threshold : R;
  f0_min : option R;
  f0_max : option R;
  interp_uv : bool;
  output_interp_target_length : option nat;
  retur_uv : bool;
  test_time_augmentation : bool;
  tta_uv_penalty : R;
  tta_key_shifts : nat;
  tta_use_origin_uv : bool
}.

(** The list object created once for the default value of
    [tta_key_shifts]: every call that omits the argument receives this
    address. *)
Definition default_tta_key_shifts : nat := 0%nat.

Definition default_key_shift_list : list Q := [0; -(12); 12]%Q.

Definition default_args (wav : list R) (sr : R) : infer_args :=
  {| wav := wav;
     sr := sr;
     decoder_mode := "local_argmax"%string;
     threshold := 0.006;
     f0_min := None;
     f0_max := None;
     interp_uv := false;
     output_interp_target_length := None;
     retur_uv := false;
     test_time_augmentation := false;
     tta_uv_penalty := 12;
     tta_key_shifts := default_tta_key_shifts;
     tta_use_origin_uv := false |}.

(** What [infer] returns: [f0], or the pair [(f0, uv)]. *)
Inductive infer_output : Type :=
| F0 (f0 : list R)
| F0_UV (f0 uv : list R).

(** [lambda x: (x if x >= 0 else -x / 2)] *)
Definition sort_key (x : Q) : Q :=
  if Qle_bool 0 x then x else (- x / 2)%Q.

(** [list.sort(key=...)]: ascending in the key and stable. *)
Fixpoint insert_by_key (x : Q) (l : list Q) : list Q :=
  match l with
  | [] => [x]
  | y :: l' =>
      if Qle_bool (sort_key x) (sort_key y) then x :: y :: l'
      else y :: insert_by_key x l'
  end.

Fixpoint sort_by_key (l : list Q) : list Q :=
  match l with
  | [] => []
  | x :: l' => insert_by_key x (sort_by_key l')
  end.

(** What it means to be sorted as [list.sort(key=...)] sorts: the keys
    ascend, and the elements of one key are those of the old list, in the
    order they had there. *)
Definition sorted_by_key (l : list Q) : Prop :=
  Sorted (fun u v => (sort_key u <= sort_key v)%Q) l.

Definition has_key (k x : Q) : bool := Qeq_bool (sort_key x) k.

Definition keeps_order_of_equal_keys (old new : list Q) : Prop :=
  forall k, filter (has_key k) new = filter (has_key k) old.

(** [self.__call__(wav, sr, decoder_mode, threshold, key_shift)] *)
Definition call_model (self : InferCFNaiveMelPE) (a : infer_args)
    (key_shift : Q) : M (list R) :=
  fun w =>
    (Ok (call self (wav a) (sr a) (decoder_mode a) (threshold a) key_shift),
     {| lists := lists w; calls := calls w ++ [key_shift] |}).

(** Elementwise product of two tensors of shape [(1, T, 1)], with the
    broadcasting of a single frame. *)
Definition mul_tensor (x y : list R) : result (list R) :=
  if Nat.eqb (length x) (length y)
  then Ok (map (fun p => fst p * snd p) (combine x y))
  else if Nat.eqb (length y) 1 then Ok (map (fun u => u * hd 0 y) x)
  else if Nat.eqb (length x) 1 then Ok (map (fun v => hd 0 x * v) y)
  else Raise RuntimeError.

(** [torch.nn.functional.interpolate(x.transpose(1, 2), size=n,
    mode="nearest").transpose(1, 2)]: the result has [n] frames, each of
    them a frame of [x]; empty inputs and outputs are refused.  Frame [i] of
    the result is taken here from frame [floor (i * T / n)] of [x]; torch
    computes this index in float32, as [floor (i * (T / n))], which can be
    the frame before.  The statements below use the number of frames and the
    fact that every frame of the result is a frame of [x], not the index. *)
Definition interpolate_nearest (n : nat) (x : list R) : result (list R) :=
  match n, x with
  | O, _ => Raise RuntimeError
  | _, [] => Raise RuntimeError
  | _, _ => Ok (map (fun i => nth (i * length x / n) x 0) (seq 0 n))
  end.

(** [int(output_interp_target_length)]: [int(None)] is a [TypeError]. *)
Definition py_int (n : option nat) : M nat :=
  match n with
  | Some k => ret k
  | None => raise TypeError
  end.

(** The body of [infer].  [gap_fill] is
    [batch_interp_with_replacement_detach] of the module [torch_interp],
    applied to the boolean mask and the frequencies. *)
Definition infer (gap_fill : list bool -> list R -> list R)
    (self : InferCFNaiveMelPE) (a : infer_args) : M infer_output :=
  let* (f0, f0_list) :=
    (if test_time_augmentation a then
       let* shifts := read_list (tta_key_shifts a) in
       let* _ := py_assert (Nat.ltb 0 (length shifts)) in
       let* _ := write_list (tta_key_shifts a) (sort_by_key shifts) in
       let* shifts := read_list (tta_key_shifts a) in
       let* f0_list := mapM (call_model self a) shifts in
       let* f0 :=
         lift (ensemble_f0 f0_list (map Q2R shifts) (tta_uv_penalty a)) in
       ret (f0, f0_list_after f0_list (map Q2R shifts))
     else
       let* f0 := call_model self a 0%Q in
       ret (f0, [])) in
  let* f0_for_uv :=
    (if test_time_augmentation a && tta_use_origin_uv a then
       let* shifts := read_list (tta_key_shifts a) in
       match shifts with
       | [] => raise IndexError
       | s0 :: _ =>
           if Qeq_bool s0 0 then
             match f0_list with
             | [] => raise IndexError
             | f0_0 :: _ => ret f0_0
             end
           else call_model self a 0%Q
       end
     else ret f0) in
  let* f0_min :=
    (match f0_min a with
     | Some m => ret m
     | None =>
         match args_model_f0_min self with
         | Some m => ret m
         | None => raise KeyError
         end
     end) in
  let uv := map (fun x => b2r (if Rlt_dec x f0_min then true else false))
                f0_for_uv in
  let* f0 := lift (mul_tensor f0 (map (fun u => 1 - u) uv)) in
  let f0 :=
    if interp_uv a
    then gap_fill (map (fun u => negb (eq0 u)) uv) f0
    else f0 in
  let f0 :=
    match f0_max a with
    | Some m => map (fun x => if Rgt_dec x m then m else x) f0
    | None => f0
    end in
  let* f0 :=
    (match output_interp_target_length a with
     | Some n => lift (interpolate_nearest n f0)
     | None => ret f0
     end) in
  if retur_uv a then
    let* n := py_int (output_interp_target_length a) in
    let* uv := lift (interpolate_nearest n uv) in
    ret (F0_UV f0 uv)
  else ret (F0 f0).

(** ** What a computation leaves alone *)

(** A computation that leaves the list objects alone. *)
Definition keeps_lists {A : Type} (m : M A) : Prop :=
  forall w, lists (snd (m w)) = lists w.

(** A computation that leaves the whole world alone. *)
Definition pure {A : Type} (m : M A) : Prop :=
  forall w, snd (m w) = w.

(** A computation that preserves the property [I] of the world. *)
Definition stable {A : Type} (I : world -> Prop) (m : M A) : Prop :=
  forall w, I w -> I (snd (m w)).

(** A computation that raises from every world. *)
Definition never_returns {A : Type} (m : M A) : Prop :=
  forall w out, fst (m w) <> Ok out.

(** ** Concrete inputs used by the examples below *)

(** A module whose extractor answers every request with one frame at
    440 Hz, and an initial world: the default list at its address, an empty
    list at address 1, the list [[12; -12; 0]] at address 2. *)
Definition stub_self : InferCFNaiveMelPE :=
  {| call := fun _ _ _ _ _ => [440]; args_model_f0_min := Some 32.7 |}.

Definition stub_world : world :=
  {| lists := fun addr =>
       match addr with
       | 0%nat => default_key_shift_list
       | 2%nat => [12; -(12); 0]%Q
       | _ => []
       end;
     calls := [] |}.

Definition no_gap_fill (mask : list bool) (f0 : list R) : list R := f0.

(** [infer(wav, sr, test_time_augmentation=True, tta_key_shifts=<addr>)] *)
Definition tta_args (addr : nat) : infer_args :=
  {| wav := [0; 0];
     sr := 16000;
     decoder_mode := "local_argmax"%string;
     threshold := 0.006;
     f0_min := None;
     f0_max := None;
     interp_uv := false;
     output_interp_target_length := None;
     retur_uv := false;
     test_time_augmentation := true;
     tta_uv_penalty := 12;
     tta_key_shifts := addr;
     tta_use_origin_uv := false |}.

(** [infer(wav, sr, retur_uv=True)] *)
Definition uv_args : infer_args :=
  {| wav := [0; 0];
     sr := 16000;
     decoder_mode := "local_argmax"%string;
     threshold := 0.006;
     f0_min := None;
     f0_max := None;
     interp_uv := false;
     output_interp_target_length := None;
     retur_uv := true;
     test_time_augmentation := false;
     tta_uv_penalty := 12;
     tta_key_shifts := default_tta_key_shifts;
     tta_use_origin_uv := false |}.

(** Two hypotheses over four frames, extracted at the key shifts 0 and 12,
    and the notes they are compared by. *)
Definition example_f0_list : list (list R) :=
  [[0; 220; 0; 0]; [220; 1760; 1760; 1760]].

Definition example_key_shifts : list R := [0; 12].

Definition example_notes : list (list R) :=
  [[0; 45]; [57; 81]; [0; 81]; [0; 81]].

(** ** What [infer] returns *)

Definition returned_f0 (out : infer_output) : list R :=
  match out with
  | F0 f0 => f0
  | F0_UV f0 _ => f0
  end.

Definition returned_uv (out : infer_output) : option (list R) :=
  match out with
  | F0 _ => None
  | F0_UV _ uv => Some uv
  end.

(** Whatever the computation returns satisfies [P]. *)
Definition returns_only {A : Type} (m : M A) (P : A -> Prop) : Prop :=
  forall w a w', m w = (Ok a, w') -> P a.

(** ** Spawning a model (lines 237 to 322) *)

(** Configurations are what [json.load] and a checkpoint's ["config_dict"]
    hold: JSON values, a dict being its items in insertion order. *)
#[local] Unset Elimination Schemes.

Inductive json : Type :=
| JNull
| JBool (b : bool)
| JNum (x : R)
| JStr (s : string)
| JList (l : list json)
| JDict (items : list (string * json)).

#[local] Set Elimination Schemes.

(** What the spawning functions raise: their own [ValueError], the
    [NotImplementedError] of the ONNX wrapper, the errors of subscripting,
    and whatever the helpers outside this file raise. *)
Inductive spawn_error : Type :=
| ValueError
| NotImplementedError
| Builtin (e : exn)
| External (code : nat).

Inductive outcome (A : Type) : Type :=
| Returned (a : A)
| Raised (e : spawn_error).

Arguments Returned {A} a.
Arguments Raised {A} e.

Definition obind {A B : Type} (m : outcome A) (f : A -> outcome B)
    : outcome B :=
  match m with
  | Returned a => f a
  | Raised e => Raised e
  end.

Notation "'let+' x ':=' m 'in' k" := (obind m (fun x => k))
  (at level 10, x pattern, m at level 100, k at level 200).

Fixpoint dict_get (items : list (string * json)) (key : string)
    : option json :=
  match items with
  | [] => None
  | (k, v) :: items' =>
      if String.eqb key k then Some v else dict_get items' key
  end.

Fixpoint dict_set (items : list (string * json)) (key : string) (x : json)
    : list (string * json) :=
  match items with
  | [] => [(key, x)]
  | (k, v) :: items' =>
      if String.eqb key k then (k, x) :: items'
      else (k, v) :: dict_set items' key x
  end.

(** [v[key]] *)
Definition py_getitem (v : json) (key : string) : outcome json :=
  match v with
  | JDict items =>
      match dict_get items key with
      | Some x => Returned x
      | None => Raised (Builtin KeyError)
      end
  | _ => Raised (Builtin TypeError)
  end.

(** [v[key] = x], giving [v] afterwards *)
Definition py_setitem (v : json) (key : string) (x : json) : outcome json :=
  match v with
  | JDict items => Returned (JDict (dict_set items key x))
  | _ => Raised (Builtin TypeError)
  end.

(** [config["model"][key] = x], giving [config] afterwards: the inner dict
    is changed in place. *)
Definition set_model_entry (config : json) (key : string) (x : json)
    : outcome json :=
  let+ model := py_getitem config "model" in
  let+ model' := py_setitem model key x in
  py_setitem config "model" model'.

(** The two entries of a checkpoint that are read; [None] for a missing
    key. *)
Record checkpoint (State : Type) : Type := {
  ckpt_config_dict : option json;
  ckpt_model : option State
}.

Arguments ckpt_config_dict {State} c.
Arguments ckpt_model {State} c.

Definition ckpt_getitem {A : Type} (entry : option A) : outcome A :=
  match entry with
  | Some x => Returned x
  | None => Raised (Builtin KeyError)
  end.

(** [x is None], [x is True], [x is False], [x == s] *)
Definition is_none (x : json) : bool :=
  match x with JNull => true | _ => false end.

Definition is_true (x : json) : bool :=
  match x with JBool true => true | _ => false end.

Definition is_false (x : json) : bool :=
  match x with JBool false => true | _ => false end.

Definition eq_str (x : json) (s : string) : bool :=
  match x with JStr s' => String.eqb s' s | _ => false end.

(** [InferCFNaiveMelPEONNX.__init__] *)
Definition InferCFNaiveMelPEONNX_init {Model : Type} (args : json)
    (onnx_path device : string) : outcome Model :=
  Raised NotImplementedError.

(** [spawn_infer_model_from_onnx].  From outside this file: [get_device];
    [load_config], which stands for [get_config_json_in_same_path], [open]
    and [json.load]; [dot], the attribute access of [DotDict]. *)
Definition spawn_infer_model_from_onnx {Model : Type}
    (get_device : option string -> string -> outcome string)
    (load_config : string -> outcome json)
    (dot : json -> string -> outcome json)
    (onnx_path : string) (device : option string) : outcome Model :=
  let+ device :=
    get_device device
      "torchfcpe.tools.spawn_infer_cf_naive_mel_pe_from_onnx"%string in
  let+ args := load_config onnx_path in
  let+ is_onnx := dot args "is_onnx"%string in
  if is_none is_onnx || is_false is_onnx then Raised ValueError
  else
    let+ model := dot args "model"%string in
    let+ type := dot model "type"%string in
    if eq_str type "CFNaiveMelPEONNX"
    then InferCFNaiveMelPEONNX_init args onnx_path device
    else Raised ValueError.

(** Lines 304 to 307: the configuration of the checkpoint, after the two
    dropouts of a bundled model have been set to [0.0].  The assignments
    change the dict inside the checkpoint, which the second assignment and
    [DotDict(ckpt["config_dict"])] then read. *)
Definition checkpoint_config {State : Type} (ckpt : checkpoint State)
    (bundled_model : bool) : outcome json :=
  if bundled_model then
    let+ config := ckpt_getitem (ckpt_config_dict ckpt) in
    let+ config := set_model_entry config "conv_dropout" (JNum 0) in
    set_model_entry config "atten_dropout" (JNum 0)
  else ckpt_getitem (ckpt_config_dict ckpt).

(** [spawn_infer_model_from_pt].  From outside this file: [get_device],
    [torch_load], [dot] as above, and [construct] for
    [InferCFNaiveMelPE(args, state).to(device)] followed by [eval()]. *)
Definition spawn_infer_model_from_pt {State Model : Type}
    (get_device : option string -> string -> outcome string)
    (torch_load : string -> string -> outcome (checkpoint State))
    (dot : json -> string -> outcome json)
    (construct : json -> State -> string -> outcome Model)
    (pt_path : string) (device : option string) (bundled_model : bool)
    : outcome Model :=
  let+ device :=
    get_device device
      "torchfcpe.tools.spawn_infer_cf_naive_mel_pe_from_pt"%string in
  let+ ckpt := torch_load pt_path device in
  let+ args := checkpoint_config ckpt bundled_model in
  let+ is_onnx := dot args "is_onnx"%string in
  if negb (is_none is_onnx) && is_true is_onnx then Raised ValueError
  else
    let+ model := dot args "model"%string in
    let+ type := dot model "type"%string in
    if eq_str type "CFNaiveMelPE" then
      let+ state := ckpt_getitem (ckpt_model ckpt) in
      construct args state device
    else Raised ValueError.

(** [spawn_bundled_infer_model]; [assets] is the directory of the
    package's assets. *)
Definition spawn_bundled_infer_model {State Model : Type}
    (get_device : option string -> string -> outcome string)
    (torch_load : string -> string -> outcome (checkpoint State))
    (dot : json -> string -> outcome json)
    (construct : json -> State -> string -> outcome Model)
    (assets : string) (device : option string) : outcome Model :=
  spawn_infer_model_from_pt get_device torch_load dot construct
    (assets ++ "/fcpe_c_v001.pt")%string device true.

(** ** More concrete inputs *)

Definition bare_self : InferCFNaiveMelPE :=
  {| call := fun _ _ _ _ _ => [440]; args_model_f0_min := None |}.

Definition ramp_self : InferCFNaiveMelPE :=
  {| call := fun _ _ _ _ _ => [0; 440; 880]; args_model_f0_min := Some 32.7 |}.

Definition resample_args : infer_args :=
  {| wav := [0; 0];
     sr := 16000;
     decoder_mode := "local_argmax"%string;
     threshold := 0.006;
     f0_min := None;
     f0_max := Some 500;
     interp_uv := false;
     output_interp_target_length := Some 6%nat;
     retur_uv := true;
     test_time_augmentation := false;
     tta_uv_penalty := 12;
     tta_key_shifts := default_tta_key_shifts;
     tta_use_origin_uv := false |}.

Definition clamp_args : infer_args :=
  {| wav := [0; 0];
     sr := 16000;
     decoder_mode := "local_argmax"%string;
     threshold := 0.006;
     f0_min := Some 50;
     f0_max := Some 500;
     interp_uv := false;
     output_interp_target_length := None;
     retur_uv := false;
     test_time_augmentation := false;
     tta_uv_penalty := 12;
     tta_key_shifts := default_tta_key_shifts;
     tta_use_origin_uv := false |}.

Definition stub_get_device (device : option string) (func_name : string)
    : outcome string :=
  Returned match device with Some d => d | None => "cpu"%string end.

Definition stub_dot (v : json) (key : string) : outcome json :=
  match v with
  | JDict items =>
      Returned match dict_get items key with Some x => x | None => JNull end
  | _ => Raised (External 0)
  end.

Definition onnx_config : json :=
  JDict [("is_onnx"%string, JBool true);
         ("model"%string, JDict [("type"%string, JStr "CFNaiveMelPEONNX")])].

Definition pt_config : json :=
  JDict [("model"%string,
          JDict [("type"%string, JStr "CFNaiveMelPE");
                 ("conv_dropout"%string, JNum 0.1);
                 ("atten_dropout"%string, JNum 0.1)])].

Definition pt_checkpoint : checkpoint nat :=
  {| ckpt_config_dict := Some pt_config; ckpt_model := Some 7%nat |}.

Definition onnx_checkpoint : checkpoint nat :=
  {| ckpt_config_dict := Some onnx_config; ckpt_model := Some 7%nat |}.

Definition stub_construct (args : json) (state : nat) (device : string)
    : outcome (json * nat) :=
  Returned (args, state).

(** * Properties *)

(** ** Lists *)

Lemma nth_map_in {A B : Type} (f : A -> B) (l : list A) (i : nat) (d : A)
    (d' : B) :
  (i < length l)%nat -> nth i (map f l) d' = f (nth i l d).
Proof.
  intros H. rewrite (nth_indep _ d' (f d)) by now rewrite length_map.
  apply map_nth.
Qed.

Lemma combine_nth_min {A B : Type} (l : list A) (l' : list B) (i : nat)
    (d : A) (d' : B) :
  (i < Nat.min (length l) (length l'))%nat ->
  nth i (combine l l') (d, d') = (nth i l d, nth i l' d').
Proof.
  revert l' i. induction l as [| x l IH]; intros [| y l'] i Hi;
    simpl in Hi; try lia.
  destruct i as [| i]; [reflexivity |]. simpl. apply IH. lia.
Qed.

(** ** [torch_min] *)

Lemma torch_min_cons x y v :
  torch_min (x :: y :: v)
  = if Rle_dec x (fst (torch_min (y :: v))) then (x, 0%nat)
    else (fst (torch_min (y :: v)), S (snd (torch_min (y :: v)))).
Proof.
  change (torch_min (x :: y :: v))
    with (let (m, i) := torch_min (y :: v) in
          if Rle_dec x m then (x, 0%nat) else (m, S i)).
  destruct (torch_min (y :: v)) as [m i]. reflexivity.
Qed.

Lemma torch_min_spec v :
  v <> [] ->
  (snd (torch_min v) < length v)%nat
  /\ nth (snd (torch_min v)) v 0 = fst (torch_min v)
  /\ forall i, (i < length v)%nat -> fst (torch_min v) <= nth i v 0.
Proof.
  induction v as [| x v IH]; [congruence | intros _].
  destruct v as [| y v].
  - simpl. split; [lia | split; [reflexivity |]].
    intros [| i] Hi; [lra | simpl in Hi; lia].
  - destruct IH as (Hlt & Hnth & Hle); [discriminate |].
    rewrite torch_min_cons.
    destruct (Rle_dec x (fst (torch_min (y :: v)))) as [Hx | Hx].
    + cbn [fst snd]. split; [simpl; lia | split; [reflexivity |]].
      intros [| i] Hi; [simpl; lra |].
      change (nth (S i) (x :: y :: v) 0) with (nth i (y :: v) 0).
      apply Rle_trans with (1 := Hx). apply Hle. simpl in *; lia.
    + apply Rnot_le_lt in Hx. cbn [fst snd]. split; [| split].
      * simpl in *; lia.
      * exact Hnth.
      * intros [| i] Hi; [cbn [nth]; lra |].
        change (nth (S i) (x :: y :: v) 0) with (nth i (y :: v) 0).
        apply Hle. simpl in *; lia.
Qed.

Lemma torch_min_first v i :
  (i < snd (torch_min v))%nat -> fst (torch_min v) < nth i v 0.
Proof.
  revert i. induction v as [| x v IH]; intros i Hi; [simpl in Hi; lia |].
  destruct v as [| y v]; [simpl in Hi; lia |].
  rewrite torch_min_cons in *.
  destruct (Rle_dec x (fst (torch_min (y :: v)))) as [Hx | Hx];
    cbn [fst snd] in *; [lia |].
  apply Rnot_le_lt in Hx.
  destruct i as [| i]; [cbn [nth]; lra |].
  change (nth (S i) (x :: y :: v) 0) with (nth i (y :: v) 0).
  apply IH. lia.
Qed.

(** ** One step of the recurrence *)

Lemma l2_distance_voiced prev cur :
  prev > 0 -> l2_distance prev cur = Rmax 0 ((prev - cur) ^ 2 - 0.5).
Proof.
  intros H. unfold l2_distance, gt0.
  destruct (Rgt_dec prev 0) as [_ | n]; [| contradiction].
  cbn [b2r]. rewrite Rmult_1_r.
  destruct (Rgt_dec ((prev - cur) ^ 2 - 0.5) 0) as [Hd | Hd]; cbn [b2r].
  - rewrite Rmax_right; lra.
  - rewrite Rmax_left; lra.
Qed.

Lemma l2_distance_unvoiced prev cur :
  prev <= 0 -> l2_distance prev cur = 0.
Proof.
  intros H. unfold l2_distance, gt0.
  destruct (Rgt_dec prev 0) as [Hp | _]; [lra |].
  cbn [b2r]. rewrite Rmult_0_r.
  destruct (Rgt_dec (0 - 0.5) 0) as [Hd | _]; cbn [b2r]; lra.
Qed.

Lemma voiced_candidate_arrival uv_penalty d prev cur :
  cur > 0 ->
  voiced_candidate uv_penalty cur (d, prev)
  = d + arrival_penalty uv_penalty prev cur.
Proof.
  intros Hc. unfold voiced_candidate, arrival_penalty.
  destruct (Rle_dec cur 0) as [H | _]; [lra |].
  destruct (Rgt_dec prev 0) as [Hp | Hp].
  - rewrite l2_distance_voiced by assumption. unfold gt0.
    destruct (Rgt_dec prev 0); [| contradiction]. cbn [negb b2r]. lra.
  - rewrite l2_distance_unvoiced by lra. unfold gt0.
    destruct (Rgt_dec prev 0); [contradiction |]. cbn [negb b2r]. lra.
Qed.

Lemma dp_step_candidates uv_penalty notes_prev dp_prev cur :
  dp_step uv_penalty notes_prev dp_prev cur
  = torch_min (candidates uv_penalty notes_prev dp_prev cur).
Proof. unfold dp_step, candidates. now destruct (Rle_dec cur 0). Qed.

Lemma candidates_length uv_penalty notes_prev dp_prev cur :
  length notes_prev = length dp_prev ->
  length (candidates uv_penalty notes_prev dp_prev cur) = length dp_prev.
Proof.
  intros H. unfold candidates, unvoiced_candidates, voiced_candidates.
  destruct (Rle_dec cur 0); rewrite length_map; [reflexivity |].
  rewrite length_combine. lia.
Qed.

Lemma candidates_nth uv_penalty notes_prev dp_prev cur c :
  length notes_prev = length dp_prev ->
  (c < length dp_prev)%nat ->
  nth c (candidates uv_penalty notes_prev dp_prev cur) 0
  = nth c dp_prev 0 + arrival_penalty uv_penalty (nth c notes_prev 0) cur.
Proof.
  intros Hlen Hc. unfold candidates.
  destruct (Rle_dec cur 0) as [Hcur | Hcur].
  - unfold unvoiced_candidates, arrival_penalty.
    destruct (Rle_dec cur 0); [| contradiction].
    rewrite (nth_map_in _ _ _ 0) by assumption. lra.
  - unfold voiced_candidates.
    rewrite (nth_map_in _ _ _ (0, 0)) by (rewrite length_combine; lia).
    rewrite combine_nth by lia.
    apply voiced_candidate_arrival. lra.
Qed.

(** ** The tables *)

Lemma forward_rows uv_penalty rows :
  forall notes_prev dp_prev dps bts,
    forward uv_penalty notes_prev dp_prev rows = (dps, bts) ->
    length dps = length rows /\ length bts = length rows
    /\ forall t, (t < length rows)%nat ->
         let r := map (dp_step uv_penalty (nth t (notes_prev :: rows) [])
                               (nth t (dp_prev :: dps) []))
                      (nth t rows []) in
         nth t dps [] = map fst r /\ nth t bts [] = map snd r.
Proof.
  induction rows as [| cur rows IH]; intros notes_prev dp_prev dps bts H.
  - simpl in H. injection H as <- <-.
    split; [reflexivity | split; [reflexivity |]].
    intros t Ht; simpl in Ht; lia.
  - simpl in H.
    destruct (forward uv_penalty cur
                (map fst (map (dp_step uv_penalty notes_prev dp_prev) cur))
                rows) as [dps' bts'] eqn:E.
    injection H as <- <-.
    destruct (IH _ _ _ _ E) as (Hd & Hb & Hn).
    split; [simpl; lia | split; [simpl; lia |]].
    intros [| t] Ht; [now split |].
    apply Hn. simpl in Ht. lia.
Qed.

Section Tables.
Variable uv_penalty : R.
Variable notes : list (list R).
Variable dp : list (list R).
Variable backtrack : list (list nat).
Variable C : nat.
Hypothesis Htables : dp_tables uv_penalty notes = Ok (dp, backtrack).
Hypothesis Hrect : forall t, (t < length notes)%nat -> length (nth t notes []) = C.


Lemma tables_row0 : nth 0 dp [] = dp_init uv_penalty (nth 0 notes []).
Proof.
  unfold dp_tables in Htables. destruct notes as [| row0 rows]; [discriminate |].
  destruct (forward uv_penalty row0 (dp_init uv_penalty row0) rows)
    as [dps bts] eqn:E.
  now injection Htables as <- <-.
Qed.

Lemma tables_step t :
  (S t < length notes)%nat ->
  let r := map (dp_step uv_penalty (nth t notes []) (nth t dp []))
               (nth (S t) notes []) in
  nth (S t) dp [] = map fst r /\ nth (S t) backtrack [] = map snd r.
Proof.
  unfold dp_tables in Htables. destruct notes as [| row0 rows]; [discriminate |].
  destruct (forward uv_penalty row0 (dp_init uv_penalty row0) rows)
    as [dps bts] eqn:E.
  injection Htables as <- <-.
  destruct (forward_rows _ _ _ _ _ _ E) as (_ & _ & Hn).
  intros Ht. apply (Hn t). simpl in Ht. lia.
Qed.

Lemma dp_row_length t : (t < length notes)%nat -> length (nth t dp []) = C.
Proof.
  destruct t as [| t]; intros Ht.
  - rewrite tables_row0. unfold dp_init. rewrite length_map. now apply Hrect.
  - destruct (tables_step t Ht) as [-> _]. rewrite !length_map. now apply Hrect.
Qed.

Lemma dp_at_0 c :
  (0 < length notes)%nat -> (c < C)%nat ->
  dp_at dp 0 c = initial_penalty uv_penalty (note_at notes 0 c).
Proof.
  intros HT Hc. unfold dp_at, note_at. rewrite tables_row0. unfold dp_init.
  rewrite (nth_map_in _ _ _ 0) by (rewrite Hrect; assumption).
  unfold initial_penalty, le0.
  destruct (Rle_dec (nth c (nth 0 notes []) 0) 0); cbn [b2r]; lra.
Qed.

Lemma dp_at_S t c :
  (S t < length notes)%nat -> (c < C)%nat ->
  let v := candidates uv_penalty (nth t notes []) (nth t dp [])
                      (note_at notes (S t) c) in
  dp_at dp (S t) c = fst (torch_min v)
  /\ bt_at backtrack (S t) c = snd (torch_min v).
Proof.
  intros Ht Hc. unfold dp_at, bt_at, note_at.
  destruct (tables_step t Ht) as [-> ->].
  rewrite !map_map.
  rewrite (nth_map_in _ _ _ 0), (nth_map_in _ _ _ 0)
    by (rewrite Hrect; assumption).
  rewrite dp_step_candidates. now split.
Qed.

Lemma candidates_row t cur :
  (S t < length notes)%nat -> (0 < C)%nat ->
  let v := candidates uv_penalty (nth t notes []) (nth t dp []) cur in
  v <> [] /\ length v = C
  /\ forall c', (c' < C)%nat ->
       nth c' v 0 = dp_at dp t c' + arrival_penalty uv_penalty (note_at notes t c') cur.
Proof.
  intros Ht HC v.
  assert (Hl : length (nth t notes []) = length (nth t dp []))
    by (rewrite Hrect, dp_row_length; lia).
  assert (Hv : length v = C)
    by (unfold v; rewrite candidates_length, dp_row_length; auto; lia).
  split; [intros E; rewrite E in Hv; simpl in Hv; lia |].
  split; [exact Hv |].
  intros c' Hc'. unfold v, dp_at, note_at.
  apply candidates_nth; [exact Hl | rewrite dp_row_length; lia].
Qed.

(** The predecessors recorded in [backtrack] are hypothesis indices. *)
Lemma bt_at_in_range t c :
  (t < length notes)%nat -> (c < C)%nat -> (bt_at backtrack t c < C)%nat.
Proof.
  intros Ht Hc. destruct t as [| t].
  - unfold bt_at. unfold dp_tables in Htables.
    destruct notes as [| row0 rows]; [discriminate |].
    destruct (forward uv_penalty row0 (dp_init uv_penalty row0) rows).
    injection Htables as <- <-. cbn [nth].
    rewrite (nth_map_in _ _ _ 0).
    + lia.
    + specialize (Hrect 0%nat Ht). simpl in Hrect. lia.
  - destruct (dp_at_S t c Ht Hc) as [_ ->].
    destruct (candidates_row t (note_at notes (S t) c) Ht) as (Hne & Hlen & _);
      [lia |].
    destruct (torch_min_spec _ Hne) as (Hlt & _). lia.
Qed.

(** *** Paths *)

Lemma path_penalty_ext p q t :
  (forall i, (i <= t)%nat -> nth i p 0%nat = nth i q 0%nat) ->
  path_penalty uv_penalty notes p t = path_penalty uv_penalty notes q t.
Proof.
  induction t as [| t IH]; intros H; simpl.
  - now rewrite (H 0%nat) by lia.
  - rewrite IH by (intros i Hi; apply H; lia).
    now rewrite (H t), (H (S t)) by lia.
Qed.

Lemma backtrack_path_length k c : length (backtrack_path backtrack k c) = k.
Proof.
  revert c. induction k as [| k IH]; intros c; simpl; [reflexivity |].
  rewrite length_app, IH. simpl. lia.
Qed.

Lemma backtrack_path_last k c :
  nth k (backtrack_path backtrack (S k) c) 0%nat = c.
Proof.
  simpl. rewrite app_nth2; rewrite backtrack_path_length; [| lia].
  now rewrite Nat.sub_diag.
Qed.

Lemma backtrack_path_prefix k c i :
  (i < k)%nat ->
  nth i (backtrack_path backtrack (S k) c) 0%nat
  = nth i (backtrack_path backtrack k (bt_at backtrack k c)) 0%nat.
Proof.
  intros Hi. simpl. rewrite app_nth1; [reflexivity |].
  now rewrite backtrack_path_length.
Qed.

Lemma backtrack_path_in_range k c i :
  (k <= length notes)%nat -> (c < C)%nat -> (i < k)%nat ->
  (nth i (backtrack_path backtrack k c) 0 < C)%nat.
Proof.
  revert c i. induction k as [| k IH]; intros c i Hk Hc Hi; [lia |].
  destruct (Nat.eq_dec i k) as [-> | Hne].
  - now rewrite backtrack_path_last.
  - rewrite backtrack_path_prefix by lia.
    apply IH; [lia | apply bt_at_in_range; lia | lia].
Qed.

(** No path is cheaper than the table entry at its end. *)
Lemma dp_lower_bound t :
  (t < length notes)%nat ->
  forall p, (forall i, (i <= t)%nat -> (nth i p 0 < C)%nat) ->
  dp_at dp t (nth t p 0%nat) <= path_penalty uv_penalty notes p t.
Proof.
  induction t as [| t IH]; intros Ht p Hp.
  - simpl. rewrite dp_at_0; [lra | lia | apply Hp; lia].
  - simpl.
    assert (HC : (0 < C)%nat) by (specialize (Hp 0%nat); lia).
    destruct (dp_at_S t (nth (S t) p 0%nat) Ht) as [-> _]; [apply Hp; lia |].
    destruct (candidates_row t (note_at notes (S t) (nth (S t) p 0%nat)) Ht HC)
      as (Hne & Hlen & Hnth).
    destruct (torch_min_spec _ Hne) as (_ & _ & Hle).
    specialize (Hle (nth t p 0%nat)). rewrite Hlen, Hnth in Hle by (apply Hp; lia).
    specialize (IH ltac:(lia) p ltac:(intros i Hi; apply Hp; lia)).
    specialize (Hle ltac:(apply Hp; lia)). lra.
Qed.

(** The backtracked path to an entry costs exactly that entry. *)
Lemma dp_attained t :
  (t < length notes)%nat ->
  forall c, (c < C)%nat ->
  path_penalty uv_penalty notes (backtrack_path backtrack (S t) c) t
  = dp_at dp t c.
Proof.
  induction t as [| t IH]; intros Ht c Hc.
  - simpl. now rewrite dp_at_0.
  - cbn [path_penalty].
    rewrite backtrack_path_last.
    rewrite (backtrack_path_prefix (S t) c t) by lia.
    rewrite backtrack_path_last.
    rewrite (path_penalty_ext _ (backtrack_path backtrack (S t)
                                   (bt_at backtrack (S t) c)))
      by (intros i Hi; apply backtrack_path_prefix; lia).
    assert (Hb : (bt_at backtrack (S t) c < C)%nat)
      by (apply bt_at_in_range; lia).
    rewrite IH by (lia || assumption).
    destruct (dp_at_S t c Ht Hc) as [-> Hbt].
    destruct (candidates_row t (note_at notes (S t) c) Ht ltac:(lia))
      as (Hne & Hlen & Hnth).
    destruct (torch_min_spec _ Hne) as (_ & Hval & _).
    rewrite <- Hval, <- Hbt. now rewrite Hnth.
Qed.
End Tables.

(** ** [cat_last] *)

Lemma cat_last_ok cols T :
  cols <> [] -> Forall (fun col => length col = T) cols ->
  exists rows,
    cat_last cols = Ok rows /\ length rows = T
    /\ forall t, (t < T)%nat ->
         nth t rows [] = map (fun col => nth t col 0) cols.
Proof.
  intros Hne Hall. destruct cols as [| col0 rest]; [congruence |].
  unfold cat_last.
  assert (H0 : length col0 = T) by now inversion Hall.
  assert (Hrest : forallb (fun col => Nat.eqb (length col) (length col0)) rest
                  = true).
  { apply forallb_forall. intros col Hin. apply Nat.eqb_eq.
    rewrite Forall_forall in Hall. rewrite H0. apply Hall. now right. }
  rewrite Hrest. eexists. split; [reflexivity |]. rewrite H0.
  split; [now rewrite length_map, length_seq |].
  intros t Ht.
  rewrite (nth_map_in _ _ _ 0%nat) by now rewrite length_seq.
  now rewrite seq_nth.
Qed.

Lemma cat_last_entry cols T rows t c :
  cat_last cols = Ok rows -> Forall (fun col => length col = T) cols ->
  (t < T)%nat -> (c < length cols)%nat ->
  nth c (nth t rows []) 0 = nth t (nth c cols []) 0.
Proof.
  intros Hcat Hall Ht Hc.
  destruct (cat_last_ok cols T) as (rows' & Hcat' & _ & Hrow);
    [intros ->; simpl in Hc; lia | assumption |].
  rewrite Hcat in Hcat'. injection Hcat' as <-.
  rewrite Hrow by assumption.
  now rewrite (nth_map_in _ _ _ []).
Qed.

(** ** Backtracking *)

Lemma backtrack_loop_length f0s backtrack k c :
  length (backtrack_loop f0s backtrack k c) = k.
Proof.
  revert c. induction k as [| k IH]; intros c; simpl; [reflexivity |].
  rewrite length_app, IH. simpl. lia.
Qed.

(** The loop emits, on every frame, the entry of [f0s] at the index of the
    backtracked path. *)
Lemma backtrack_loop_select f0s backtrack k c i :
  (i < k)%nat ->
  nth i (backtrack_loop f0s backtrack k c) 0
  = nth (nth i (backtrack_path backtrack k c) 0%nat) (nth i f0s []) 0.
Proof.
  revert c i. induction k as [| k IH]; intros c i Hi; [lia |].
  simpl. destruct (Nat.eq_dec i k) as [-> | Hne].
  - rewrite !app_nth2;
      rewrite ?backtrack_loop_length, ?backtrack_path_length; try lia.
    now rewrite Nat.sub_diag.
  - rewrite !app_nth1;
      rewrite ?backtrack_loop_length, ?backtrack_path_length; try lia.
    apply IH. lia.
Qed.

(** ** [ensemble_f0] on well-formed input *)

Lemma compensated_length f0_list key_shift_list :
  length (compensated f0_list key_shift_list)
  = Nat.min (length f0_list) (length key_shift_list).
Proof. unfold compensated. now rewrite length_map, length_combine. Qed.

Lemma compensated_nth f0_list key_shift_list c :
  (c < Nat.min (length f0_list) (length key_shift_list))%nat ->
  nth c (compensated f0_list key_shift_list) []
  = map (compensate (nth c key_shift_list 0)) (nth c f0_list []).
Proof.
  intros Hc. unfold compensated.
  rewrite (nth_map_in _ _ _ ([], 0)) by (rewrite length_combine; exact Hc).
  now rewrite combine_nth_min.
Qed.

Lemma f0_list_after_nth f0_list key_shift_list c :
  (c < Nat.min (length f0_list) (length key_shift_list))%nat ->
  nth c (f0_list_after f0_list key_shift_list) []
  = map (compensate (nth c key_shift_list 0)) (nth c f0_list []).
Proof.
  intros Hc. unfold f0_list_after.
  rewrite app_nth1 by now rewrite compensated_length.
  now apply compensated_nth.
Qed.

Lemma compensated_frames f0_list key_shift_list T :
  Forall (fun f0 => length f0 = T) f0_list ->
  Forall (fun f0 => length f0 = T) (compensated f0_list key_shift_list).
Proof.
  intros H. unfold compensated. apply Forall_forall. intros f0 Hin.
  apply in_map_iff in Hin as ([f k] & <- & Hin). rewrite length_map.
  apply in_combine_l in Hin. rewrite Forall_forall in H. now apply H.
Qed.

Lemma f0_list_after_frames f0_list key_shift_list T :
  Forall (fun f0 => length f0 = T) f0_list ->
  Forall (fun f0 => length f0 = T) (f0_list_after f0_list key_shift_list).
Proof.
  intros H. unfold f0_list_after. apply Forall_app. split.
  - now apply compensated_frames.
  - apply Forall_forall. intros f0 Hin. rewrite Forall_forall in H.
    apply H.
    rewrite <- (firstn_skipn (length (compensated f0_list key_shift_list))
                             f0_list).
    apply in_or_app. now right.
Qed.

Lemma f0_list_after_length f0_list key_shift_list :
  length (f0_list_after f0_list key_shift_list) = length f0_list.
Proof.
  unfold f0_list_after. rewrite length_app, length_skipn, compensated_length. lia.
Qed.

(** The notes form a table with [T] rows and one column per pair of a
    hypothesis and a key shift. *)
Lemma notes_of_ok f0_list key_shift_list T :
  well_formed f0_list key_shift_list T ->
  exists notes,
    notes_of f0_list key_shift_list = Ok notes /\ length notes = T
    /\ (forall t, (t < length notes)%nat ->
          length (nth t notes [])
          = Nat.min (length f0_list) (length key_shift_list))
    /\ forall t c, (t < T)%nat ->
         (c < Nat.min (length f0_list) (length key_shift_list))%nat ->
         note_at notes t c
         = to_note (compensate (nth c key_shift_list 0)
                               (nth t (nth c f0_list []) 0)).
Proof.
  intros (Hf & Hk & HT & Hall). unfold notes_of.
  set (cols := map (map to_note) (compensated f0_list key_shift_list)).
  assert (Hlen : length cols
                 = Nat.min (length f0_list) (length key_shift_list))
    by (unfold cols; now rewrite length_map, compensated_length).
  assert (Hcols : Forall (fun col => length col = T) cols).
  { unfold cols. apply Forall_forall. intros col Hin.
    apply in_map_iff in Hin as (f0 & <- & Hin). rewrite length_map.
    pose proof (compensated_frames f0_list key_shift_list T Hall) as H.
    rewrite Forall_forall in H. now apply H. }
  destruct (cat_last_ok cols T) as (notes & Hcat & HlenT & Hrow);
    [| exact Hcols |].
  { intros E. rewrite E in Hlen. simpl in Hlen.
    destruct f0_list; [congruence |]. destruct key_shift_list; [congruence |].
    simpl in Hlen. lia. }
  exists notes. split; [exact Hcat |]. split; [exact HlenT |]. split.
  - intros t Ht. rewrite Hrow by lia. now rewrite length_map.
  - intros t c Ht Hc. unfold note_at.
    rewrite (cat_last_entry cols T notes t c Hcat Hcols Ht) by lia.
    unfold cols. rewrite (nth_map_in _ _ _ []) by now rewrite compensated_length.
    rewrite compensated_nth by assumption.
    assert (Hft : length (nth c f0_list []) = T).
    { rewrite Forall_forall in Hall. apply Hall, nth_In. lia. }
    rewrite !(nth_map_in _ _ _ 0) by (rewrite ?length_map; lia).
    reflexivity.
Qed.

(** What [ensemble_f0] returns on well-formed input: on every frame the
    compensated frequency of the hypothesis that the backtracked path
    selects there. *)
Lemma ensemble_f0_decodes f0_list key_shift_list tta_uv_penalty T notes :
  well_formed f0_list key_shift_list T ->
  notes_of f0_list key_shift_list = Ok notes ->
  exists out,
    ensemble_f0 f0_list key_shift_list tta_uv_penalty = Ok out
    /\ length out = T
    /\ forall t, (t < T)%nat ->
         let c := nth t (decoded_path tta_uv_penalty notes) 0%nat in
         (c < Nat.min (length f0_list) (length key_shift_list))%nat
         /\ nth t out 0
            = compensate (nth c key_shift_list 0) (nth t (nth c f0_list []) 0).
Proof.
  intros Hwf Hnotes.
  destruct (notes_of_ok _ _ _ Hwf) as (notes' & Hnotes' & HlenT & Hrect & _).
  rewrite Hnotes in Hnotes'. injection Hnotes' as <-.
  destruct Hwf as (Hf & Hk & HT & Hall).
  unfold ensemble_f0, decoded_path. unfold notes_of in Hnotes. rewrite Hnotes.
  destruct (dp_tables (tta_uv_penalty ^ 2) notes) as [[dp bt] | e] eqn:Htab.
  2:{ unfold dp_tables in Htab. destruct notes; [simpl in HlenT; lia |].
      destruct (forward _ _ _ _); discriminate. }
  destruct (cat_last_ok (f0_list_after f0_list key_shift_list) T)
    as (f0s & Hcat & Hf0sT & Hf0row).
  { intros E. apply (f_equal (@length _)) in E.
    rewrite f0_list_after_length in E. destruct f0_list; [congruence | discriminate]. }
  { now apply f0_list_after_frames. }
  rewrite Hcat. eexists. split; [reflexivity |].
  rewrite Hf0sT, HlenT. replace (T - 1 + 1)%nat with T by lia.
  split; [apply backtrack_loop_length |].
  intros t Ht.
  set (C := Nat.min (length f0_list) (length key_shift_list)) in *.
  assert (HC : (0 < C)%nat).
  { unfold C. destruct f0_list; [congruence |].
    destruct key_shift_list; [congruence |]. simpl. lia. }
  assert (Hmi : (torch_argmin (nth (T - 1) dp []) < C)%nat).
  { unfold torch_argmin.
    pose proof (dp_row_length _ _ _ _ C Htab Hrect (T - 1)%nat ltac:(lia)) as Hl.
    destruct (torch_min_spec (nth (T - 1) dp [])) as (Hlt & _); [| lia].
    intros E. rewrite E in Hl. simpl in Hl. lia. }
  assert (Hc : (nth t (backtrack_path bt T (torch_argmin (nth (T - 1) dp []))) 0
                < C)%nat).
  { apply (backtrack_path_in_range _ _ _ _ C Htab Hrect); lia. }
  split; [exact Hc |].
  rewrite backtrack_loop_select by assumption.
  rewrite (cat_last_entry _ T f0s t _ Hcat)
    by (try apply f0_list_after_frames; try rewrite f0_list_after_length;
        try assumption; unfold C in Hc; lia).
  rewrite f0_list_after_nth by exact Hc.
  rewrite (nth_map_in _ _ _ 0); [reflexivity |].
  rewrite Forall_forall in Hall. rewrite (Hall (nth _ f0_list [])); [lia |].
  apply nth_In. unfold C in Hc. lia.
Qed.

(** ** Compensation *)

Lemma compensate_0 f0 : compensate 0 f0 = f0.
Proof.
  unfold compensate. replace (0 / 12) with 0 by lra.
  rewrite Rpower_O by lra. lra.
Qed.

Lemma compensate_12 f0 : compensate 12 f0 = f0 / 2.
Proof.
  unfold compensate. replace (12 / 12) with 1 by lra.
  rewrite Rpower_1 by lra. reflexivity.
Qed.


Lemma well_formed_single f0 key_shift :
  f0 <> [] -> well_formed [f0] [key_shift] (length f0).
Proof.
  intros H. repeat split; try discriminate.
  - destruct f0; [congruence | simpl; lia].
  - now constructor.
Qed.

(** A single hypothesis is returned as it was compensated. *)
Lemma ensemble_f0_single f0 key_shift tta_uv_penalty :
  f0 <> [] ->
  ensemble_f0 [f0] [key_shift] tta_uv_penalty = Ok (map (compensate key_shift) f0).
Proof.
  intros Hne.
  pose proof (well_formed_single f0 key_shift Hne) as Hwf.
  destruct (notes_of_ok _ _ _ Hwf) as (notes & Hnotes & _).
  destruct (ensemble_f0_decodes _ _ tta_uv_penalty _ _ Hwf Hnotes)
    as (out & Hout & Hlen & Hsel).
  rewrite Hout. f_equal.
  apply (nth_ext _ _ 0 0); [now rewrite length_map |].
  intros t Ht. rewrite Hlen in Ht.
  destruct (Hsel t Ht) as [Hc ->]. simpl in Hc.
  replace (nth t (decoded_path tta_uv_penalty notes) 0%nat) with 0%nat by lia.
  simpl. now rewrite (nth_map_in _ _ _ 0).
Qed.

(** ** Optimality of the decoded path *)

Lemma dp_tables_ok uv_penalty notes :
  (0 < length notes)%nat ->
  exists dp bt, dp_tables uv_penalty notes = Ok (dp, bt).
Proof.
  intros HT. unfold dp_tables.
  destruct notes as [| row0 rows]; [simpl in HT; lia |].
  destruct (forward _ row0 (dp_init _ row0) rows).
  eauto.
Qed.

Section Decoded.
Variable tta_uv_penalty : R.
Variable notes : list (list R).
Variable C : nat.
Hypothesis HT : (0 < length notes)%nat.
Hypothesis HC : (0 < C)%nat.
Hypothesis Hrect :
  forall t, (t < length notes)%nat -> length (nth t notes []) = C.

Lemma decoded_path_ends_at_min dp bt :
  dp_tables (tta_uv_penalty ^ 2) notes = Ok (dp, bt) ->
  let P := decoded_path tta_uv_penalty notes in
  let c := torch_argmin (nth (length notes - 1) dp []) in
  path_upto C (length notes - 1) P
  /\ (c < C)%nat
  /\ nth (length notes - 1) P 0%nat = c
  /\ path_penalty (tta_uv_penalty ^ 2) notes P (length notes - 1)
     = dp_at dp (length notes - 1) c
  /\ forall c', (c' < C)%nat ->
       dp_at dp (length notes - 1) c <= dp_at dp (length notes - 1) c'.
Proof.
  intros Htab P c. unfold P, decoded_path. rewrite Htab.
  pose proof (dp_row_length _ _ _ _ C Htab Hrect (length notes - 1)%nat) as Hl.
  pose proof (backtrack_path_in_range _ _ _ _ C Htab Hrect) as Hrange.
  pose proof (dp_attained _ _ _ _ C Htab Hrect (length notes - 1)%nat) as Hatt.
  unfold dp_at in *. fold c.
  assert (Hrow : nth (length notes - 1) dp [] <> []).
  { intros E. rewrite E in Hl. simpl in Hl. lia. }
  destruct (torch_min_spec _ Hrow) as (Hlt & Hval & Hle).
  fold (torch_argmin (nth (length notes - 1) dp [])) in Hlt, Hval.
  fold c in Hlt, Hval.
  rewrite Hl in Hlt, Hle by lia. clearbody c.
  destruct (length notes) as [| k] eqn:E; [lia |].
  replace (S k - 1)%nat with k in * by lia.
  split; [| split; [exact Hlt | split; [apply backtrack_path_last | split]]].
  - split; [apply backtrack_path_length |].
    intros i Hi. apply Hrange; lia.
  - apply Hatt; [lia | exact Hlt].
  - intros c' Hc'. rewrite Hval. now apply Hle.
Qed.

Lemma decoded_path_optimal q :
  (forall i, (i <= length notes - 1)%nat -> (nth i q 0 < C)%nat) ->
  path_penalty (tta_uv_penalty ^ 2) notes (decoded_path tta_uv_penalty notes)
               (length notes - 1)
  <= path_penalty (tta_uv_penalty ^ 2) notes q (length notes - 1).
Proof.
  intros Hq. destruct (dp_tables_ok (tta_uv_penalty ^ 2) notes HT) as (dp & bt & Htab).
  destruct (decoded_path_ends_at_min dp bt Htab) as (_ & Hc & _ & -> & Hmin).
  apply Rle_trans
    with (dp_at dp (length notes - 1) (nth (length notes - 1) q 0%nat)).
  - apply Hmin, Hq. lia.
  - apply (dp_lower_bound _ _ _ _ C Htab Hrect); [lia | exact Hq].
Qed.
End Decoded.

(** ** The penalty of a path, split by the unvoiced penalty *)

Lemma initial_penalty_split u n :
  initial_penalty u n = u * INR (initial_charges n) + initial_penalty 0 n.
Proof.
  unfold initial_penalty, initial_charges.
  destruct (Rle_dec n 0); simpl; lra.
Qed.

Lemma arrival_penalty_split u prev cur :
  arrival_penalty u prev cur
  = u * INR (arrival_charges prev cur) + arrival_penalty 0 prev cur.
Proof.
  unfold arrival_penalty, arrival_charges.
  destruct (Rle_dec cur 0); [simpl; lra |].
  destruct (Rgt_dec prev 0); simpl; lra.
Qed.

Lemma path_penalty_split u notes p t :
  path_penalty u notes p t
  = u * INR (unvoiced_charges notes p t) + path_penalty 0 notes p t.
Proof.
  induction t as [| t IH]; simpl.
  - apply initial_penalty_split.
  - rewrite IH, arrival_penalty_split, plus_INR. lra.
Qed.

Lemma well_formed_columns f0_list key_shift_list T :
  well_formed f0_list key_shift_list T ->
  (0 < Nat.min (length f0_list) (length key_shift_list))%nat.
Proof.
  intros (Hf & Hk & _). destruct f0_list; [congruence |].
  destruct key_shift_list; [congruence |]. simpl. lia.
Qed.

(** ** Notes of concrete frequencies *)

Lemma ln_2_pos : 0 < ln 2.
Proof. pose proof ln_lt_2. lra. Qed.

Lemma log2_2 : log2 2 = 1.
Proof. unfold log2. field. pose proof ln_2_pos. lra. Qed.

Lemma log2_1 : log2 1 = 0.
Proof. unfold log2. rewrite ln_1. field. pose proof ln_2_pos. lra. Qed.

Lemma log2_mult x y : 0 < x -> 0 < y -> log2 (x * y) = log2 x + log2 y.
Proof.
  intros Hx Hy. unfold log2. rewrite ln_mult by assumption. field.
  pose proof ln_2_pos. lra.
Qed.

Lemma log2_inv x : 0 < x -> log2 (/ x) = - log2 x.
Proof.
  intros Hx. unfold log2. rewrite ln_Rinv by assumption. field.
  pose proof ln_2_pos. lra.
Qed.

Lemma log2_lt x y : 0 < x -> x < y -> log2 x < log2 y.
Proof.
  intros Hx Hxy. unfold log2. apply Rmult_lt_compat_r.
  - apply Rinv_0_lt_compat, ln_2_pos.
  - now apply ln_increasing.
Qed.

Lemma to_note_voiced f0 n :
  0 < f0 -> log2 (f0 / 440) = n -> 0 <= n * 12 + 69 ->
  to_note f0 = n * 12 + 69.
Proof.
  intros Hpos Hlog Hn. unfold to_note, eq0.
  destruct (Req_dec_T f0 0) as [E | _]; [lra |]. cbn [b2r].
  replace (f0 + 0 * 1e-6) with f0 by lra. rewrite Hlog.
  destruct (Rlt_dec (n * 12 + 69) 0); [lra | reflexivity].
Qed.

Lemma to_note_0 : to_note 0 = 0.
Proof.
  unfold to_note, eq0. destruct (Req_dec_T 0 0) as [_ | n]; [| contradiction].
  cbn [b2r]. destruct (Rlt_dec _ 0) as [_ | Hn]; [reflexivity |].
  exfalso. apply Hn.
  assert (H : log2 ((0 + 1 * 1e-6) / 440) < log2 (/ (2 * (2 * (2 * (2 * (2 * 2))))))).
  { apply log2_lt; lra. }
  rewrite log2_inv in H by lra.
  rewrite !log2_mult, log2_2 in H by lra. lra.
Qed.

Lemma to_note_110 : to_note 110 = 45.
Proof.
  rewrite (to_note_voiced 110 (- 2)); try lra.
  replace (110 / 440) with (/ (2 * 2)) by lra.
  rewrite log2_inv, log2_mult, log2_2; lra.
Qed.

Lemma to_note_220 : to_note 220 = 57.
Proof.
  rewrite (to_note_voiced 220 (- 1)); try lra.
  replace (220 / 440) with (/ 2) by lra.
  rewrite log2_inv, log2_2; lra.
Qed.

Lemma to_note_440 : to_note 440 = 69.
Proof.
  rewrite (to_note_voiced 440 0); try lra.
  replace (440 / 440) with 1 by lra. apply log2_1.
Qed.

Lemma to_note_880 : to_note 880 = 81.
Proof.
  rewrite (to_note_voiced 880 1); try lra.
  replace (880 / 440) with 2 by lra. apply log2_2.
Qed.

(** ** Evaluating the recurrence for two hypotheses *)

Lemma torch_min_pair x y :
  torch_min [x; y] = if Rle_dec x y then (x, 0%nat) else (y, 1%nat).
Proof. reflexivity. Qed.

Lemma dp_step_pair u n0 n1 d0 d1 cur :
  dp_step u [n0; n1] [d0; d1] cur
  = torch_min [d0 + arrival_penalty u n0 cur; d1 + arrival_penalty u n1 cur].
Proof.
  rewrite dp_step_candidates.
  assert (H : forall c, (c < 2)%nat ->
            nth c (candidates u [n0; n1] [d0; d1] cur) 0
            = nth c [d0; d1] 0 + arrival_penalty u (nth c [n0; n1] 0) cur)
    by (intros c Hc; now apply candidates_nth).
  pose proof (candidates_length u [n0; n1] [d0; d1] cur eq_refl) as Hl.
  pose proof (H 0%nat ltac:(lia)) as H0.
  pose proof (H 1%nat ltac:(lia)) as H1.
  destruct (candidates u [n0; n1] [d0; d1] cur) as [| x [| y [| z v]]];
    try discriminate.
  cbn [nth] in H0, H1. now rewrite H0, H1.
Qed.

Lemma forward_cons u notes_prev dp_prev cur rows r :
  map (dp_step u notes_prev dp_prev) cur = r ->
  forward u notes_prev dp_prev (cur :: rows)
  = (map fst r :: fst (forward u cur (map fst r) rows),
     map snd r :: snd (forward u cur (map fst r) rows)).
Proof.
  intros <-. simpl. now destruct (forward _ _ _ _).
Qed.

Ltac decide_reals :=
  repeat match goal with
         | |- context [Rle_dec ?a ?b] =>
             destruct (Rle_dec a b); [try (exfalso; lra) | try (exfalso; lra)]
         | |- context [Rgt_dec ?a ?b] =>
             destruct (Rgt_dec a b); [try (exfalso; lra) | try (exfalso; lra)]
         end.

(** One entry of a row, on numerals: the two arrival penalties are decided
    first, then the comparison of [torch_min]; a whole row entry by entry. *)
Ltac dp_entry :=
  rewrite dp_step_pair; unfold arrival_penalty, Rmax; decide_reals;
  rewrite torch_min_pair; decide_reals; f_equal; lra.

Ltac dp_row :=
  cbn [map]; repeat (apply (f_equal2 cons); [dp_entry |]); reflexivity.

Lemma example_tables_8 :
  dp_tables (8 ^ 2) example_notes
  = Ok ([[64; 0]; [143.5; 192]; [207.5; 192]; [256; 192]],
        [[0; 0]; [1; 0]; [0; 1]; [1; 1]]%nat).
Proof.
  unfold dp_tables, example_notes.
  assert (H0 : dp_init (8 ^ 2) [0; 45] = [64; 0]).
  { unfold dp_init, le0. cbn [map]. decide_reals. cbn [b2r].
    repeat f_equal; lra. }
  rewrite H0.
  rewrite (forward_cons _ _ _ _ _ [(143.5, 1%nat); (192, 0%nat)]) by dp_row.
  cbn [map fst snd].
  rewrite (forward_cons _ _ _ _ _ [(207.5, 0%nat); (192, 1%nat)]) by dp_row.
  cbn [map fst snd].
  rewrite (forward_cons _ _ _ _ _ [(256, 1%nat); (192, 1%nat)]) by dp_row.
  reflexivity.
Qed.

Lemma example_tables_12 :
  dp_tables (12 ^ 2) example_notes
  = Ok ([[144; 0]; [143.5; 432]; [287.5; 432]; [431.5; 432]],
        [[0; 0]; [1; 0]; [0; 1]; [0; 1]]%nat).
Proof.
  unfold dp_tables, example_notes.
  assert (H0 : dp_init (12 ^ 2) [0; 45] = [144; 0]).
  { unfold dp_init, le0. cbn [map]. decide_reals. cbn [b2r].
    repeat f_equal; lra. }
  rewrite H0.
  rewrite (forward_cons _ _ _ _ _ [(143.5, 1%nat); (432, 0%nat)]) by dp_row.
  cbn [map fst snd].
  rewrite (forward_cons _ _ _ _ _ [(287.5, 0%nat); (432, 1%nat)]) by dp_row.
  cbn [map fst snd].
  rewrite (forward_cons _ _ _ _ _ [(431.5, 0%nat); (432, 1%nat)]) by dp_row.
  reflexivity.
Qed.

Lemma example_path_8 : decoded_path 8 example_notes = [0; 1; 1; 1]%nat.
Proof.
  unfold decoded_path. rewrite example_tables_8.
  unfold torch_argmin. cbn [length example_notes Nat.sub nth].
  rewrite torch_min_pair. decide_reals. reflexivity.
Qed.

Lemma example_path_12 : decoded_path 12 example_notes = [1; 0; 0; 0]%nat.
Proof.
  unfold decoded_path. rewrite example_tables_12.
  unfold torch_argmin. cbn [length example_notes Nat.sub nth].
  rewrite torch_min_pair. decide_reals. reflexivity.
Qed.

Lemma example_well_formed : well_formed example_f0_list example_key_shifts 4.
Proof.
  repeat split; try discriminate; [lia |]. repeat constructor.
Qed.

Lemma example_notes_of :
  notes_of example_f0_list example_key_shifts = Ok example_notes.
Proof.
  unfold notes_of, compensated, example_f0_list, example_key_shifts.
  cbn [cat_last combine map fst snd forallb length Nat.eqb andb seq nth].
  rewrite !compensate_0, !compensate_12.
  replace (220 / 2) with 110 by lra. replace (1760 / 2) with 880 by lra.
  now rewrite to_note_0, to_note_110, to_note_220, to_note_880.
Qed.

Lemma example_decode tta_uv_penalty (p : list nat) (expected : list R) :
  decoded_path tta_uv_penalty example_notes = p ->
  length expected = 4%nat ->
  (forall t, (t < 4)%nat ->
     compensate (nth (nth t p 0%nat) example_key_shifts 0)
                (nth t (nth (nth t p 0%nat) example_f0_list []) 0)
     = nth t expected 0) ->
  ensemble_f0 example_f0_list example_key_shifts tta_uv_penalty = Ok expected.
Proof.
  intros Hp Hlen Hval.
  destruct (ensemble_f0_decodes _ _ tta_uv_penalty _ _
              example_well_formed example_notes_of)
    as (out & -> & Hout & Hsel).
  f_equal. apply (nth_ext _ _ 0 0); [congruence |].
  intros t Ht. rewrite Hout in Ht.
  destruct (Hsel t Ht) as [_ ->]. rewrite Hp. now apply Hval.
Qed.

Ltac frames4 :=
  let t := fresh "t" in
  let Ht := fresh "Ht" in
  intros t Ht;
  do 4 (destruct t as [| t];
        [cbn [nth example_key_shifts example_f0_list];
         rewrite ?compensate_0, ?compensate_12; lra |]);
  lia.

Lemma example_ensemble_8 :
  ensemble_f0 example_f0_list example_key_shifts 8 = Ok [0; 880; 880; 880].
Proof.
  apply (example_decode 8 _ _ example_path_8); [reflexivity | frames4].
Qed.

Lemma example_ensemble_12 :
  ensemble_f0 example_f0_list example_key_shifts 12 = Ok [110; 220; 0; 0].
Proof.
  apply (example_decode 12 _ _ example_path_12); [reflexivity | frames4].
Qed.

Lemma voiced_frames_cons_voiced x f0 :
  x <> 0 -> voiced_frames (x :: f0) = S (voiced_frames f0).
Proof.
  intros H. unfold voiced_frames, eq0. cbn [filter].
  now destruct (Req_dec_T x 0).
Qed.

Lemma voiced_frames_cons_unvoiced f0 :
  voiced_frames (0 :: f0) = voiced_frames f0.
Proof.
  unfold voiced_frames, eq0. cbn [filter].
  destruct (Req_dec_T 0 0); [reflexivity | contradiction].
Qed.

Example voiced_frames_8 : voiced_frames [0; 880; 880; 880] = 3%nat.
Proof.
  rewrite voiced_frames_cons_unvoiced.
  now rewrite 3 voiced_frames_cons_voiced by lra.
Qed.

Example voiced_frames_12 : voiced_frames [110; 220; 0; 0] = 2%nat.
Proof.
  rewrite 2 voiced_frames_cons_voiced by lra.
  now rewrite 2 voiced_frames_cons_unvoiced.
Qed.

Lemma example_in_range :
  key_shifts_in_range example_key_shifts /\ penalty_in_range 12 4.
Proof.
  split.
  - repeat constructor; lra.
  - unfold penalty_in_range. simpl. lra.
Qed.

(** ** One hypothesis with an onset *)

(** A single hypothesis that is unvoiced on frame 0 and sounds at 440 Hz on
    frame 1, at the penalty base 12. *)
Lemma onset_notes_of : notes_of [[0; 440]] [0] = Ok [[0]; [69]].
Proof.
  unfold notes_of, compensated.
  cbn [cat_last combine map fst snd forallb length Nat.eqb andb seq nth].
  rewrite !compensate_0. now rewrite to_note_0, to_note_440.
Qed.

Lemma onset_tables :
  dp_tables (12 ^ 2) [[0]; [69]] = Ok ([[144]; [432]], [[0]; [0]]%nat).
Proof.
  unfold dp_tables.
  assert (H0 : dp_init (12 ^ 2) [0] = [144]).
  { unfold dp_init, le0. cbn [map]. decide_reals. cbn [b2r].
    repeat f_equal; lra. }
  rewrite H0.
  rewrite (forward_cons _ _ _ _ _ [(432, 0%nat)]).
  - reflexivity.
  - cbn [map]. unfold dp_step. decide_reals.
    unfold voiced_candidates, voiced_candidate. cbn [combine map torch_min].
    rewrite l2_distance_unvoiced by lra. unfold gt0. decide_reals.
    cbn [negb b2r]. repeat f_equal. lra.
Qed.

(** A single hypothesis extracted an octave up comes back an octave down. *)
Lemma example_single_shifted : ensemble_f0 [[440]] [12] 12 = Ok [220].
Proof.
  rewrite ensemble_f0_single by discriminate.
  simpl. rewrite compensate_12. do 2 f_equal. lra.
Qed.

(** * The claims about [ensemble_f0] *)

(** C1 (as amended).  On well-formed input [ensemble_f0] returns one value
    per frame, and the value emitted on frame [t] is the frequency of the
    hypothesis [c] selected there divided by [2 ^ (key_shift c / 12)]: the
    compensated value which the first loop stored back into [f0_list], not
    the value the caller passed in. *)
Theorem ensemble_f0_emits_compensated f0_list key_shift_list tta_uv_penalty T :
  well_formed f0_list key_shift_list T ->
  exists notes out,
    notes_of f0_list key_shift_list = Ok notes
    /\ ensemble_f0 f0_list key_shift_list tta_uv_penalty = Ok out
    /\ length out = T
    /\ forall t, (t < T)%nat ->
         let c := nth t (decoded_path tta_uv_penalty notes) 0%nat in
         (c < Nat.min (length f0_list) (length key_shift_list))%nat
         /\ nth t out 0
            = nth t (nth c f0_list []) 0 / Rpower 2 (nth c key_shift_list 0 / 12).
Proof.
  intros Hwf.
  destruct (notes_of_ok _ _ _ Hwf) as (notes & Hnotes & _).
  destruct (ensemble_f0_decodes _ _ tta_uv_penalty _ _ Hwf Hnotes)
    as (out & Hout & Hlen & Hsel).
  exists notes, out. repeat split; try assumption; now apply Hsel.
Qed.

Lemma ensemble_f0_emits_compensated_witness :
  well_formed [[440]] [12] 1
  /\ exists out, ensemble_f0 [[440]] [12] 12 = Ok out /\ length out = 1%nat.
Proof.
  split.
  - apply (well_formed_single [440] 12). discriminate.
  - destruct (ensemble_f0_emits_compensated [[440]] [12] 12 1)
      as (notes & out & _ & Hout & Hlen & _).
    + apply (well_formed_single [440] 12). discriminate.
    + exists out. now split.
Defined.

(** C1 as stated fails: one hypothesis of 440 Hz extracted at a key shift of
    12 semitones is emitted as 220 Hz. *)
Lemma ensemble_f0_alters_frequency :
  ensemble_f0 [[440]] [12] 12 = Ok [220] /\ 220 <> 440.
Proof.
  split; [| lra].
  rewrite ensemble_f0_single by discriminate.
  simpl. rewrite compensate_12. do 2 f_equal. lra.
Qed.

(** C3 (as amended).  For a voiced candidate ([cur > 0]) the recurrence
    minimises [voiced_candidates], and the entry of an unvoiced predecessor
    [c'] in it is [dp[t-1, c'] + 2 * uv_penalty]: the switch is charged, the
    distance between the notes is not. *)
Theorem unvoiced_to_voiced_transition uv_penalty notes_prev dp_prev cur c' :
  length notes_prev = length dp_prev ->
  (c' < length dp_prev)%nat ->
  cur > 0 ->
  nth c' notes_prev 0 <= 0 ->
  dp_step uv_penalty notes_prev dp_prev cur
  = torch_min (voiced_candidates uv_penalty notes_prev dp_prev cur)
  /\ nth c' (voiced_candidates uv_penalty notes_prev dp_prev cur) 0
     = nth c' dp_prev 0 + 2 * uv_penalty.
Proof.
  intros Hlen Hc Hcur Hprev. split.
  - unfold dp_step. destruct (Rle_dec cur 0); [lra | reflexivity].
  - unfold voiced_candidates.
    rewrite (nth_map_in _ _ _ (0, 0)) by (rewrite length_combine; lia).
    rewrite combine_nth by lia. unfold voiced_candidate.
    rewrite l2_distance_unvoiced by assumption. unfold gt0.
    destruct (Rgt_dec (nth c' notes_prev 0) 0); [lra |]. cbn [negb b2r]. lra.
Qed.

Lemma unvoiced_to_voiced_transition_witness :
  nth 0 (voiced_candidates 144 [0] [144] 69) 0 = 144 + 2 * 144.
Proof.
  apply (unvoiced_to_voiced_transition 144 [0] [144] 69 0);
    simpl; try reflexivity; try lia; lra.
Defined.

(** C3 as stated fails: from an unvoiced predecessor (note 0, accumulated
    penalty 144) to a candidate at note 69 the code charges [2 * 144], and
    not the dead-zone term [69 ^ 2 - 0.5] on top of it. *)
Lemma unvoiced_to_voiced_not_dead_zone :
  nth 0 (voiced_candidates 144 [0] [144] 69) 0
  <> nth 0 [144] 0 + spec_unvoiced_to_voiced_cost 144 0 69.
Proof.
  unfold voiced_candidates, voiced_candidate, spec_unvoiced_to_voiced_cost.
  cbn [combine map nth]. rewrite l2_distance_unvoiced by lra.
  unfold gt0. destruct (Rgt_dec 0 0); [lra |]. cbn [negb b2r].
  rewrite Rmax_right by lra. lra.
Qed.

(** C4 (as amended).  For a batch of one item, on well-formed input with
    key shifts and a penalty base within range, both tables are built and
    [ensemble_f0] returns.  Every entry [dp[t, c]] is the least accumulated
    penalty of a path through the frames [0 .. t] that ends at hypothesis
    [c]: some path has that penalty and none has less, for the penalty model
    of the code, [path_penalty] ([uv_penalty] for an unvoiced start and for
    every arrival at an unvoiced candidate; for a voiced candidate the
    squared distance beyond the dead zone after a voiced predecessor and
    [2 * uv_penalty], without a distance term, after an unvoiced one).  The
    backtracked path ends at an entry that is least in the last row, costs
    exactly that entry, is no more expensive than any other path, and the
    output follows it frame by frame. *)
Theorem ensemble_f0_dp_optimal f0_list key_shift_list tta_uv_penalty T :
  well_formed f0_list key_shift_list T ->
  key_shifts_in_range key_shift_list ->
  penalty_in_range tta_uv_penalty T ->
  let C := Nat.min (length f0_list) (length key_shift_list) in
  let uv_penalty := tta_uv_penalty ^ 2 in
  exists notes dp backtrack out,
    notes_of f0_list key_shift_list = Ok notes
    /\ dp_tables uv_penalty notes = Ok (dp, backtrack)
    /\ ensemble_f0 f0_list key_shift_list tta_uv_penalty = Ok out
    /\ (forall t c, (t < T)%nat -> (c < C)%nat ->
          (exists q, path_upto C t q /\ nth t q 0%nat = c
                     /\ path_penalty uv_penalty notes q t = dp_at dp t c)
          /\ forall q, path_upto C t q -> nth t q 0%nat = c ->
               dp_at dp t c <= path_penalty uv_penalty notes q t)
    /\ let P := decoded_path tta_uv_penalty notes in
       path_upto C (T - 1) P
       /\ (exists c, (c < C)%nat
                     /\ path_penalty uv_penalty notes P (T - 1) = dp_at dp (T - 1) c
                     /\ forall c', (c' < C)%nat ->
                          dp_at dp (T - 1) c <= dp_at dp (T - 1) c')
       /\ (forall q, path_upto C (T - 1) q ->
             path_penalty uv_penalty notes P (T - 1)
             <= path_penalty uv_penalty notes q (T - 1))
       /\ forall t, (t < T)%nat ->
            nth t out 0
            = compensate (nth (nth t P 0%nat) key_shift_list 0)
                         (nth t (nth (nth t P 0%nat) f0_list []) 0).
Proof.
  intros Hwf _ _ C uv_penalty.
  pose proof (well_formed_columns _ _ _ Hwf) as HC. fold C in HC.
  destruct (notes_of_ok _ _ _ Hwf) as (notes & Hnotes & HlenT & Hrect & _).
  fold C in Hrect.
  assert (HT : (0 < length notes)%nat) by (destruct Hwf as (_ & _ & ? & _); lia).
  destruct (dp_tables_ok (tta_uv_penalty ^ 2) notes HT) as (dp & bt & Htab).
  destruct (ensemble_f0_decodes _ _ tta_uv_penalty _ _ Hwf Hnotes)
    as (out & Hout & _ & Hsel).
  exists notes, dp, bt, out.
  split; [exact Hnotes |]. split; [exact Htab |]. split; [exact Hout |]. split.
  - intros t c Ht Hc. split.
    + exists (backtrack_path bt (S t) c). split; [split |].
      * apply backtrack_path_length.
      * intros i Hi.
        apply (backtrack_path_in_range _ _ _ _ C Htab Hrect); lia.
      * split; [apply backtrack_path_last |].
        apply (dp_attained _ _ _ _ C Htab Hrect); lia.
    + intros q [_ Hq] <-.
      apply (dp_lower_bound _ _ _ _ C Htab Hrect); [lia | exact Hq].
  - destruct (decoded_path_ends_at_min tta_uv_penalty notes C HT HC Hrect dp bt Htab)
      as (Hupto & Hc & _ & Hpen & Hmin).
    pose proof (decoded_path_optimal tta_uv_penalty notes C HT HC Hrect) as Hopt.
    rewrite HlenT in *.
    split; [exact Hupto |]. split; [eauto |]. split.
    + intros q [_ Hq]. now apply Hopt.
    + intros t Ht. now apply Hsel.
Qed.

Lemma ensemble_f0_dp_optimal_witness :
  well_formed example_f0_list example_key_shifts 4
  /\ key_shifts_in_range example_key_shifts
  /\ penalty_in_range 12 4
  /\ exists out, ensemble_f0 example_f0_list example_key_shifts 12 = Ok out.
Proof.
  assert (Hwf : well_formed example_f0_list example_key_shifts 4).
  { repeat split; try discriminate; [lia |]. repeat constructor. }
  destruct example_in_range as [Hks Hp].
  split; [exact Hwf |]. split; [exact Hks |]. split; [exact Hp |].
  destruct (ensemble_f0_dp_optimal example_f0_list example_key_shifts 12 4
              Hwf Hks Hp)
    as (notes & dp & bt & out & _ & _ & Hout & _).
  now exists out.
Defined.

(** C4 as stated fails: under the penalty model that section 4.2 states,
    with the dead-zone term charged on top of [2 * uv_penalty] after an
    unvoiced predecessor, the only path of the single hypothesis
    [[0; 440]] costs [144 + (69 ^ 2 - 0.5) + 288 = 5192.5] at the base 12,
    while the table of the code holds [dp[1, 0] = 144 + 288 = 432]. *)
Lemma ensemble_f0_dp_below_stated_penalty :
  exists notes dp backtrack,
    well_formed [[0; 440]] [0] 2
    /\ notes_of [[0; 440]] [0] = Ok notes
    /\ dp_tables (12 ^ 2) notes = Ok (dp, backtrack)
    /\ dp_at dp 1 0 = 432
    /\ forall q, path_upto 1 1 q ->
         spec_path_penalty (12 ^ 2) notes q 1 = 5192.5.
Proof.
  exists [[0]; [69]], [[144]; [432]], [[0]; [0]]%nat.
  split; [apply (well_formed_single [0; 440] 0); discriminate |].
  split; [exact onset_notes_of |].
  split; [exact onset_tables |].
  split; [reflexivity |].
  intros q [_ Hq].
  pose proof (Hq 0%nat ltac:(lia)) as H0.
  pose proof (Hq 1%nat ltac:(lia)) as H1.
  cbn [spec_path_penalty].
  replace (nth 0 q 0%nat) with 0%nat by lia.
  replace (nth 1 q 0%nat) with 0%nat by lia.
  unfold note_at. cbn [nth].
  unfold initial_penalty, spec_arrival_penalty, spec_unvoiced_to_voiced_cost.
  decide_reals. rewrite Rmax_right by lra. lra.
Qed.




(** The decoded path is a least path, and least paths at two bases compare
    in their charges, also when they are least only up to [eps]. *)
Lemma decoded_path_near_optimal tta_uv_penalty notes C :
  (0 < length notes)%nat -> (0 < C)%nat ->
  (forall t, (t < length notes)%nat -> length (nth t notes []) = C) ->
  near_optimal (tta_uv_penalty ^ 2) notes C (length notes) 0
               (decoded_path tta_uv_penalty notes).
Proof.
  intros HT HC Hrect.
  destruct (dp_tables_ok (tta_uv_penalty ^ 2) notes HT) as (dp & bt & Htab).
  destruct (decoded_path_ends_at_min tta_uv_penalty notes C HT HC Hrect dp bt
              Htab) as (Hupto & _).
  split; [exact Hupto |].
  intros q [_ Hq].
  pose proof (decoded_path_optimal tta_uv_penalty notes C HT HC Hrect q Hq).
  lra.
Qed.

Lemma near_optimal_charges notes C T a b eps pa pb :
  near_optimal (a ^ 2) notes C T eps pa ->
  near_optimal (b ^ 2) notes C T eps pb ->
  2 * eps < b ^ 2 - a ^ 2 ->
  (unvoiced_charges notes pb (T - 1) <= unvoiced_charges notes pa (T - 1))%nat.
Proof.
  intros [Hpa Hoa] [Hpb Hob] Hgap.
  pose proof (Hoa pa Hpa) as Heps.
  specialize (Hoa pb Hpb). specialize (Hob pa Hpa).
  rewrite (path_penalty_split (a ^ 2) _ pa) in Hoa.
  rewrite (path_penalty_split (a ^ 2) _ pb) in Hoa.
  rewrite (path_penalty_split (b ^ 2) _ pa) in Hob.
  rewrite (path_penalty_split (b ^ 2) _ pb) in Hob.
  apply Nat.lt_succ_r, INR_lt. rewrite S_INR.
  set (ka := INR (unvoiced_charges notes pa (T - 1))) in *.
  set (kb := INR (unvoiced_charges notes pb (T - 1))) in *.
  nra.
Qed.

(** C7 (as amended).  For a batch of one item, fixed well-formed hypotheses
    with key shifts within range, and penalty bases [0 <= a <= b] with [b]
    within range, the path decoded at the base [b] is charged [uv_penalty]
    no more often than the path decoded at [a], where a path is charged once
    for each of its unvoiced frames and twice for each switch from an
    unvoiced frame to a voiced one.  The two decoded paths are least paths
    of the exact sums; for paths that are least only up to [eps] at their
    base, as a minimisation in floating point finds them, the same holds as
    soon as [b ^ 2 - a ^ 2] exceeds [2 * eps]. *)
Theorem penalty_base_monotone_charges f0_list key_shift_list T notes a b :
  well_formed f0_list key_shift_list T ->
  key_shifts_in_range key_shift_list ->
  notes_of f0_list key_shift_list = Ok notes ->
  0 <= a -> a <= b ->
  penalty_in_range b T ->
  let C := Nat.min (length f0_list) (length key_shift_list) in
  (unvoiced_charges notes (decoded_path b notes) (T - 1)
   <= unvoiced_charges notes (decoded_path a notes) (T - 1))%nat
  /\ near_optimal (a ^ 2) notes C T 0 (decoded_path a notes)
  /\ near_optimal (b ^ 2) notes C T 0 (decoded_path b notes)
  /\ forall eps pa pb,
       near_optimal (a ^ 2) notes C T eps pa ->
       near_optimal (b ^ 2) notes C T eps pb ->
       2 * eps < b ^ 2 - a ^ 2 ->
       (unvoiced_charges notes pb (T - 1)
        <= unvoiced_charges notes pa (T - 1))%nat.
Proof.
  intros Hwf _ Hnotes Ha Hab _ C.
  pose proof (well_formed_columns _ _ _ Hwf) as HC. fold C in HC.
  destruct (notes_of_ok _ _ _ Hwf) as (notes' & Hnotes' & HlenT & Hrect & _).
  rewrite Hnotes in Hnotes'. injection Hnotes' as <-. fold C in Hrect.
  assert (HT : (0 < length notes)%nat) by (destruct Hwf as (_ & _ & ? & _); lia).
  pose proof (decoded_path_near_optimal a notes C HT HC Hrect) as Hna.
  pose proof (decoded_path_near_optimal b notes C HT HC Hrect) as Hnb.
  rewrite HlenT in Hna, Hnb.
  split; [| split; [exact Hna | split; [exact Hnb |]]].
  - destruct (Req_dec_T a b) as [-> | Hne]; [lia |].
    apply (near_optimal_charges notes C T a b 0); try assumption. nra.
  - intros eps pa pb. apply near_optimal_charges.
Qed.

Lemma penalty_base_monotone_charges_witness :
  well_formed example_f0_list example_key_shifts 4
  /\ key_shifts_in_range example_key_shifts
  /\ notes_of example_f0_list example_key_shifts = Ok example_notes
  /\ 0 <= 8 /\ 8 <= 12
  /\ penalty_in_range 12 4
  /\ (unvoiced_charges example_notes (decoded_path 12 example_notes) 3
      <= unvoiced_charges example_notes (decoded_path 8 example_notes) 3)%nat.
Proof.
  destruct example_in_range as [Hks Hp].
  split; [exact example_well_formed |].
  split; [exact Hks |].
  split; [exact example_notes_of |].
  split; [lra |]. split; [lra |].
  split; [exact Hp |].
  apply (penalty_base_monotone_charges example_f0_list example_key_shifts 4
           example_notes 8 12 example_well_formed Hks example_notes_of);
    [lra | lra | exact Hp].
Defined.

(** C7 as stated fails: for the two hypotheses of [example_f0_list] the
    sequence decoded at the base 8 has three voiced frames and the one
    decoded at the larger base 12 has two. *)
Lemma penalty_base_not_monotone_voiced :
  exists out8 out12,
    ensemble_f0 example_f0_list example_key_shifts 8 = Ok out8
    /\ ensemble_f0 example_f0_list example_key_shifts 12 = Ok out12
    /\ 8 < 12
    /\ (voiced_frames out12 < voiced_frames out8)%nat.
Proof.
  exists [0; 880; 880; 880], [110; 220; 0; 0].
  split; [exact example_ensemble_8 |].
  split; [exact example_ensemble_12 |].
  split; [lra |].
  rewrite voiced_frames_8, voiced_frames_12. lia.
Qed.




(** * [infer] *)

(** ** The monad *)

Lemma bind_ok {A B : Type} (m : M A) (f : A -> M B) w a w' :
  m w = (Ok a, w') -> bind m f w = f a w'.
Proof. intros H. unfold bind. now rewrite H. Qed.

Lemma bind_raise {A B : Type} (m : M A) (f : A -> M B) w e w' :
  m w = (Raise e, w') -> bind m f w = (Raise e, w').
Proof. intros H. unfold bind. now rewrite H. Qed.

Lemma pure_keeps_lists {A : Type} (m : M A) : pure m -> keeps_lists m.
Proof. intros H w. now rewrite H. Qed.

Lemma pure_ret {A : Type} (a : A) : pure (ret a).
Proof. intros w. reflexivity. Qed.

Lemma pure_raise {A : Type} (e : exn) : pure (@raise A e).
Proof. intros w. reflexivity. Qed.

Lemma pure_lift {A : Type} (r : result A) : pure (lift r).
Proof. intros w. reflexivity. Qed.

Lemma pure_read_list addr : pure (read_list addr).
Proof. intros w. reflexivity. Qed.

Lemma pure_py_assert b : pure (py_assert b).
Proof. intros w. now destruct b. Qed.

Lemma pure_py_int n : pure (py_int n).
Proof. intros w. now destruct n. Qed.

Lemma pure_bind {A B : Type} (m : M A) (f : A -> M B) :
  pure m -> (forall a, pure (f a)) -> pure (bind m f).
Proof.
  intros Hm Hf w. unfold bind. specialize (Hm w).
  destruct (m w) as [[a | e] w']; simpl in *; subst; [apply Hf | reflexivity].
Qed.

Lemma keeps_lists_bind {A B : Type} (m : M A) (f : A -> M B) :
  keeps_lists m -> (forall a, keeps_lists (f a)) -> keeps_lists (bind m f).
Proof.
  intros Hm Hf w. unfold bind. specialize (Hm w).
  destruct (m w) as [[a | e] w']; simpl in *; auto.
  now rewrite Hf.
Qed.

Lemma keeps_lists_call_model self a k : keeps_lists (call_model self a k).
Proof. intros w. reflexivity. Qed.

Lemma keeps_lists_mapM {A B : Type} (f : A -> M B) l :
  (forall x, keeps_lists (f x)) -> keeps_lists (mapM f l).
Proof.
  intros Hf. induction l as [| x l IH]; simpl.
  - apply pure_keeps_lists, pure_ret.
  - apply keeps_lists_bind; [apply Hf |]. intros y.
    apply keeps_lists_bind; [apply IH |]. intros ys.
    apply pure_keeps_lists, pure_ret.
Qed.

Ltac frame_step :=
  match goal with
  | |- keeps_lists (bind _ _) => apply keeps_lists_bind; [| intros ?]
  | |- keeps_lists (mapM _ _) => apply keeps_lists_mapM; intros ?
  | |- keeps_lists (call_model _ _ _) => apply keeps_lists_call_model
  | |- keeps_lists (ret _) => apply pure_keeps_lists, pure_ret
  | |- keeps_lists (raise _) => apply pure_keeps_lists, pure_raise
  | |- keeps_lists (lift _) => apply pure_keeps_lists, pure_lift
  | |- keeps_lists (read_list _) => apply pure_keeps_lists, pure_read_list
  | |- keeps_lists (py_assert _) => apply pure_keeps_lists, pure_py_assert
  | |- keeps_lists (py_int _) => apply pure_keeps_lists, pure_py_int
  | |- keeps_lists (match ?x with _ => _ end) => destruct x
  | |- keeps_lists (if ?x then _ else _) => destruct x
  | |- pure (bind _ _) => apply pure_bind; [| intros ?]
  | |- pure (ret _) => apply pure_ret
  | |- pure (raise _) => apply pure_raise
  | |- pure (lift _) => apply pure_lift
  | |- pure (read_list _) => apply pure_read_list
  | |- pure (py_assert _) => apply pure_py_assert
  | |- pure (py_int _) => apply pure_py_int
  | |- pure (match ?x with _ => _ end) => destruct x
  | |- pure (if ?x then _ else _) => destruct x
  end.

(** Everything in [infer] after the sort leaves the list objects alone. *)
Lemma lists_after_bind {A B : Type} (m : M A) (f : A -> M B) w :
  (forall a, keeps_lists (f a)) ->
  lists (snd (bind m f w)) = lists (snd (m w)).
Proof.
  intros Hf. unfold bind.
  destruct (m w) as [[a | e] w']; simpl; [apply Hf | reflexivity].
Qed.

(** ** The sort of the key shifts *)

Example sort_key_values :
  sort_key 0 = 0%Q /\ sort_key (-(12)) = (- -(12) / 2)%Q /\ sort_key 12 = 12%Q.
Proof. repeat split; reflexivity. Qed.

Example sort_default_key_shift_list :
  sort_by_key default_key_shift_list = [0; -(12); 12]%Q.
Proof. reflexivity. Qed.

Example sort_reordered_key_shift_list :
  sort_by_key [12; -(12); 0]%Q = [0; -(12); 12]%Q.
Proof. reflexivity. Qed.

(** The key, case by case. *)
Lemma sort_key_spec x :
  ((0 <= x)%Q -> sort_key x = x) /\ ((x < 0)%Q -> sort_key x = (- x / 2)%Q).
Proof.
  unfold sort_key. destruct (Qle_bool 0 x) eqn:E; split; intros H;
    try reflexivity.
  - apply Qle_bool_iff in E. exfalso. exact (Qlt_not_le _ _ H E).
  - apply Qle_bool_iff in H. congruence.
Qed.

(** The sort returns the elements it was given, ascending in the key. *)
Lemma insert_by_key_perm x l : Permutation (insert_by_key x l) (x :: l).
Proof.
  induction l as [| y l IH]; simpl; [reflexivity |].
  destruct (Qle_bool (sort_key x) (sort_key y)); [reflexivity |].
  rewrite IH. apply perm_swap.
Qed.

Lemma sort_by_key_perm l : Permutation (sort_by_key l) l.
Proof.
  induction l as [| x l IH]; simpl; [reflexivity |].
  rewrite insert_by_key_perm. now constructor.
Qed.

Lemma insert_by_key_sorted x l :
  Sorted (fun u v => (sort_key u <= sort_key v)%Q) l ->
  Sorted (fun u v => (sort_key u <= sort_key v)%Q) (insert_by_key x l).
Proof.
  induction l as [| y l IH]; intros Hs; simpl.
  - repeat constructor.
  - destruct (Qle_bool (sort_key x) (sort_key y)) eqn:E.
    + constructor; [exact Hs |]. constructor. now apply Qle_bool_iff.
    + inversion Hs as [| ? ? Hs' Hhd]; subst.
      constructor; [now apply IH |].
      assert (Hyx : (sort_key y <= sort_key x)%Q).
      { apply Qlt_le_weak, Qnot_le_lt. intros H.
        apply Qle_bool_iff in H. congruence. }
      destruct l as [| z l]; simpl.
      * now constructor.
      * destruct (Qle_bool (sort_key x) (sort_key z)); constructor;
          [exact Hyx | now inversion Hhd].
Qed.

Lemma sort_by_key_sorted l :
  Sorted (fun u v => (sort_key u <= sort_key v)%Q) (sort_by_key l).
Proof.
  induction l as [| x l IH]; simpl; [constructor |].
  now apply insert_by_key_sorted.
Qed.

(** The sort is stable: the elements of each key come out in the order in
    which they went in. *)
Lemma insert_by_key_stable k x l :
  filter (has_key k) (insert_by_key x l) = filter (has_key k) (x :: l).
Proof.
  induction l as [| y l IH]; [reflexivity |].
  cbn [insert_by_key].
  destruct (Qle_bool (sort_key x) (sort_key y)) eqn:E; [reflexivity |].
  cbn [filter] in *. rewrite IH.
  destruct (has_key k x) eqn:Hx, (has_key k y) eqn:Hy; try reflexivity.
  exfalso. unfold has_key in Hx, Hy. apply Qeq_bool_iff in Hx, Hy.
  assert (H : Qle_bool (sort_key x) (sort_key y) = true).
  { apply Qle_bool_iff. rewrite Hx, Hy. apply Qle_refl. }
  congruence.
Qed.

Lemma sort_by_key_stable l : keeps_order_of_equal_keys l (sort_by_key l).
Proof.
  intros k. induction l as [| x l IH]; [reflexivity |].
  cbn [sort_by_key]. rewrite insert_by_key_stable. cbn [filter].
  now rewrite IH.
Qed.



Lemma pure_stable {A : Type} (I : world -> Prop) (m : M A) :
  pure m -> stable I m.
Proof. intros H w HI. now rewrite H. Qed.

Lemma stable_bind {A B : Type} (I : world -> Prop) (m : M A) (f : A -> M B) :
  stable I m -> (forall a, stable I (f a)) -> stable I (bind m f).
Proof.
  intros Hm Hf w HI. unfold bind. specialize (Hm w HI).
  destruct (m w) as [[a | e] w']; simpl in *; [now apply Hf | assumption].
Qed.

Lemma stable_bind_read {B : Type} (I : world -> Prop) addr l
    (f : list Q -> M B) :
  (forall w, I w -> lists w addr = l) -> stable I (f l) ->
  stable I (bind (read_list addr) f).
Proof.
  intros Hl Hf w HI. unfold bind, read_list. rewrite (Hl w HI).
  now apply Hf.
Qed.

Lemma stable_after_bind {A B : Type} (I : world -> Prop) (m : M A)
    (f : A -> M B) w :
  I (snd (m w)) -> (forall a, stable I (f a)) -> I (snd (bind m f w)).
Proof.
  intros HI Hf. unfold bind.
  destruct (m w) as [[a | e] w']; simpl in *; [now apply Hf | assumption].
Qed.

Ltac stable_step :=
  match goal with
  | |- stable _ (bind (read_list _) _) =>
      eapply stable_bind_read; [intros ? [? ?]; eassumption | simpl]
  | |- stable _ (bind _ _) => apply stable_bind; [| intros ?]
  | |- stable _ (match ?x with _ => _ end) => destruct x
  | |- stable _ (if ?x then _ else _) => destruct x
  | |- stable _ _ => apply pure_stable; repeat frame_step
  end.

Lemma never_returns_bind {A B : Type} (m : M A) (f : A -> M B) :
  (forall a, never_returns (f a)) -> never_returns (bind m f).
Proof.
  intros Hf w out. unfold bind.
  destruct (m w) as [[a | e] w']; [apply Hf | discriminate].
Qed.

(** ** The list objects after [infer] *)

(** With test-time augmentation the list object behind [tta_key_shifts]
    holds its sorted contents when [infer] is left, by a return or by an
    exception, and no other list object has changed. *)
Lemma infer_tta_lists gap_fill self a w addr :
  test_time_augmentation a = true ->
  lists (snd (infer gap_fill self a w)) addr
  = if Nat.eqb addr (tta_key_shifts a)
    then sort_by_key (lists w (tta_key_shifts a))
    else lists w addr.
Proof.
  intros Htta. unfold infer. rewrite Htta.
  rewrite lists_after_bind by (intros [f0 f0_list]; repeat frame_step).
  erewrite bind_ok by reflexivity.
  destruct (lists w (tta_key_shifts a)) as [| s0 shifts] eqn:Hl.
  - simpl. destruct (Nat.eqb_spec addr (tta_key_shifts a)) as [-> |];
      [exact Hl | reflexivity].
  - erewrite bind_ok by reflexivity.
    erewrite bind_ok by reflexivity.
    rewrite lists_after_bind by (intros ?; repeat frame_step).
    reflexivity.
Qed.

(** With the key shifts [[0; -12; 12]] the extractor is invoked for 0, for
    -12 and for 12, in this order, and not again. *)
Lemma infer_tta_default_world gap_fill self a w :
  test_time_augmentation a = true ->
  lists w (tta_key_shifts a) = [0; -(12); 12]%Q ->
  lists (snd (infer gap_fill self a w)) (tta_key_shifts a) = [0; -(12); 12]%Q
  /\ calls (snd (infer gap_fill self a w)) = calls w ++ [0; -(12); 12]%Q.
Proof.
  intros Htta Hl.
  apply (stable_after_bind
           (fun w' => lists w' (tta_key_shifts a) = [0; -(12); 12]%Q
                      /\ calls w' = calls w ++ [0; -(12); 12]%Q)).
  - rewrite Htta.
    unfold bind, read_list, write_list, py_assert, lift, ret, raise. simpl.
    rewrite Hl. simpl. rewrite Nat.eqb_refl. simpl.
    unfold bind, ret. simpl.
    destruct (ensemble_f0 _ _ _) as [f0 | e]; simpl;
      rewrite Nat.eqb_refl, <- !app_assoc; now split.
  - intros [f0 f0_list]. rewrite Htta. simpl.
    repeat stable_step.
Qed.

(** The extractions of a list of key shifts, one after the other. *)
Lemma mapM_call_model self a shifts w :
  mapM (call_model self a) shifts w
  = (Ok (map (call self (wav a) (sr a) (decoder_mode a) (threshold a)) shifts),
     {| lists := lists w; calls := calls w ++ shifts |}).
Proof.
  revert w. induction shifts as [| s shifts IH]; intros w; simpl.
  - unfold ret. rewrite app_nil_r. now destruct w.
  - unfold bind at 1. unfold call_model at 1.
    unfold bind at 1. rewrite IH. unfold ret. simpl.
    now rewrite <- app_assoc.
Qed.

(** With test-time augmentation the extractor is invoked for the sorted key
    shifts, in their order, before it is invoked for anything else. *)
Lemma infer_tta_calls gap_fill self a w :
  test_time_augmentation a = true ->
  exists rest,
    calls (snd (infer gap_fill self a w))
    = calls w ++ sort_by_key (lists w (tta_key_shifts a)) ++ rest.
Proof.
  intros Htta.
  apply (stable_after_bind
           (fun w' => exists rest,
              calls w'
              = calls w ++ sort_by_key (lists w (tta_key_shifts a)) ++ rest)).
  - rewrite Htta. erewrite bind_ok by reflexivity.
    destruct (lists w (tta_key_shifts a)) as [| s0 shifts] eqn:Hl.
    + exists []. simpl. now rewrite app_nil_r.
    + erewrite bind_ok by reflexivity.
      erewrite bind_ok by reflexivity.
      erewrite bind_ok.
      2:{ unfold read_list, write_list. simpl. rewrite Nat.eqb_refl.
          reflexivity. }
      erewrite bind_ok by apply mapM_call_model.
      exists []. rewrite app_nil_r.
      unfold bind, lift, ret.
      destruct (ensemble_f0 _ _ _); reflexivity.
  - intros [f0 f0_list].
    assert (Hcall : forall k,
              stable (fun w' => exists rest,
                        calls w'
                        = calls w ++ sort_by_key (lists w (tta_key_shifts a))
                          ++ rest)
                     (call_model self a k)).
    { intros k w1 [rest Hc]. exists (rest ++ [k]). simpl. rewrite Hc.
      now rewrite <- !app_assoc. }
    apply stable_bind.
    + destruct (test_time_augmentation a && tta_use_origin_uv a);
        [| apply pure_stable, pure_ret].
      intros w1 HI. unfold bind, read_list.
      destruct (lists w1 (tta_key_shifts a)) as [| s0 rest0]; [exact HI |].
      destruct (Qeq_bool s0 0); [destruct f0_list; exact HI |].
      now apply Hcall.
    + intros f0_for_uv. cbv zeta. repeat stable_step.
Qed.

(** * The claims about [infer] *)

(** C2 (as amended).  With test-time augmentation [infer] sorts the key
    shifts by the key [x if x >= 0 else -x / 2], ascending and stable:
    the key of [x] is [x] for [0 <= x] and [-x / 2] for [x < 0]; whatever
    the list object held, it afterwards holds the same shifts, with
    ascending keys, the shifts of one key in the order they had before; and
    the extractor is invoked for the shifts in this order.  Under this key
    the list [[0; -12; 12]] is ordered as 0, -12, 12 (the negative shift has
    the key 6 and is visited before the positive shift of the same
    magnitude): the list object holds this order afterwards and the
    extractor was called in this order. *)
Theorem infer_default_key_shift_order gap_fill self a w :
  test_time_augmentation a = true ->
  let old := lists w (tta_key_shifts a) in
  let new := lists (snd (infer gap_fill self a w)) (tta_key_shifts a) in
  (forall x, ((0 <= x)%Q -> sort_key x = x)
             /\ ((x < 0)%Q -> sort_key x = (- x / 2)%Q))
  /\ Permutation new old
  /\ sorted_by_key new
  /\ keeps_order_of_equal_keys old new
  /\ (exists rest,
        calls (snd (infer gap_fill self a w)) = calls w ++ new ++ rest)
  /\ (old = [0; -(12); 12]%Q ->
      new = [0; -(12); 12]%Q
      /\ calls (snd (infer gap_fill self a w)) = calls w ++ [0; -(12); 12]%Q).
Proof.
  intros Htta old new.
  assert (Hnew : new = sort_by_key old).
  { unfold new. rewrite infer_tta_lists by assumption.
    now rewrite Nat.eqb_refl. }
  rewrite Hnew.
  split; [exact sort_key_spec |].
  split; [apply sort_by_key_perm |].
  split; [apply sort_by_key_sorted |].
  split; [apply sort_by_key_stable |].
  split; [now apply infer_tta_calls |].
  intros Hold. rewrite <- Hnew. now apply infer_tta_default_world.
Qed.

Lemma infer_default_key_shift_order_witness :
  test_time_augmentation (tta_args default_tta_key_shifts) = true
  /\ lists stub_world default_tta_key_shifts = [0; -(12); 12]%Q
  /\ calls (snd (infer no_gap_fill stub_self (tta_args default_tta_key_shifts)
                       stub_world))
     = [0; -(12); 12]%Q.
Proof.
  split; [reflexivity |]. split; [reflexivity |].
  apply (infer_default_key_shift_order no_gap_fill stub_self
           (tta_args default_tta_key_shifts) stub_world eq_refl).
  reflexivity.
Defined.

(** C2 as stated fails: after [infer] with the default key shifts the list
    is not in the order 0, 12, -12, and the extractor was not called in that
    order. *)
Lemma infer_default_key_shifts_not_positive_first :
  lists (snd (infer no_gap_fill stub_self (tta_args default_tta_key_shifts)
                    stub_world)) default_tta_key_shifts
  <> [0; 12; -(12)]%Q
  /\ calls (snd (infer no_gap_fill stub_self (tta_args default_tta_key_shifts)
                       stub_world))
     <> [0; 12; -(12)]%Q.
Proof.
  destruct (infer_tta_default_world no_gap_fill stub_self
              (tta_args default_tta_key_shifts) stub_world eq_refl eq_refl)
    as [Hlists Hcalls].
  change (tta_key_shifts (tta_args default_tta_key_shifts))
    with default_tta_key_shifts in Hlists.
  rewrite Hlists, Hcalls. split; discriminate.
Qed.

(** C5 (the code does not do this).  A call with [retur_uv] set and
    [output_interp_target_length] left at [None] never returns: when it
    reaches the resampling of the mask, [int(None)] raises. *)
Theorem infer_retur_uv_without_target_raises gap_fill self a w :
  retur_uv a = true ->
  output_interp_target_length a = None ->
  forall out, fst (infer gap_fill self a w) <> Ok out.
Proof.
  intros Huv Hlen. revert w. unfold infer. rewrite Huv, Hlen.
  match goal with
  | |- forall w out, fst (?m w) <> Ok out => change (never_returns m)
  end.
  apply never_returns_bind. intros [f0 f0_list].
  do 4 (apply never_returns_bind; intros ?).
  intros w out. discriminate.
Qed.

Lemma infer_retur_uv_without_target_raises_witness :
  retur_uv uv_args = true
  /\ output_interp_target_length uv_args = None
  /\ forall out, fst (infer no_gap_fill stub_self uv_args stub_world) <> Ok out.
Proof.
  split; [reflexivity |]. split; [reflexivity |].
  apply (infer_retur_uv_without_target_raises no_gap_fill stub_self uv_args
           stub_world); reflexivity.
Defined.

(** [infer(wav, sr, retur_uv=True)] on the stub module: one extraction, then
    the [TypeError]. *)
Example infer_retur_uv_default_target_type_error :
  infer no_gap_fill stub_self uv_args stub_world
  = (Raise TypeError, {| lists := lists stub_world; calls := [0%Q] |}).
Proof.
  unfold infer. simpl. unfold bind. simpl.
  unfold mul_tensor. simpl. reflexivity.
Qed.

(** C8.  With test-time augmentation and an empty list of key shifts
    [infer] raises the assertion error and leaves the world as it was: the
    extractor has not been invoked. *)
Theorem infer_empty_key_shifts_raises gap_fill self a w :
  test_time_augmentation a = true ->
  lists w (tta_key_shifts a) = [] ->
  infer gap_fill self a w = (Raise AssertionError, w).
Proof.
  intros Htta Hempty. unfold infer. rewrite Htta.
  unfold bind at 1. unfold bind at 1. unfold read_list at 1.
  rewrite Hempty. reflexivity.
Qed.

Lemma infer_empty_key_shifts_raises_witness :
  test_time_augmentation (tta_args 1) = true
  /\ lists stub_world (tta_key_shifts (tta_args 1)) = []
  /\ infer no_gap_fill stub_self (tta_args 1) stub_world
     = (Raise AssertionError, stub_world).
Proof.
  split; [reflexivity |]. split; [reflexivity |].
  apply (infer_empty_key_shifts_raises no_gap_fill stub_self (tta_args 1)
           stub_world); reflexivity.
Defined.



(** * Further properties of [ensemble_f0] *)

(** ** When [ensemble_f0] returns *)

Lemma cat_last_inv cols rows :
  cat_last cols = Ok rows ->
  cols <> []
  /\ Forall (fun col => length col = length (hd [] cols)) cols
  /\ length rows = length (hd [] cols).
Proof.
  unfold cat_last. destruct cols as [| col0 rest]; [discriminate |].
  destruct (forallb _ rest) eqn:E; [| discriminate].
  intros H. injection H as <-. split; [discriminate |]. split.
  - constructor; [reflexivity |]. apply Forall_forall. intros col Hin.
    rewrite forallb_forall in E. now apply Nat.eqb_eq, E.
  - simpl. now rewrite length_map, length_seq.
Qed.


Lemma f0_list_after_lengths f0_list key_shift_list :
  map (@length R) (f0_list_after f0_list key_shift_list)
  = map (@length R) f0_list.
Proof.
  unfold f0_list_after, compensated.
  revert key_shift_list.
  induction f0_list as [| f0 f0_list IH]; intros [| k ks]; simpl;
    try reflexivity.
  rewrite length_map. f_equal. apply IH.
Qed.

Lemma dp_tables_raises uv_penalty notes e :
  dp_tables uv_penalty notes = Raise e -> notes = [] /\ e = IndexError.
Proof.
  unfold dp_tables. destruct notes as [| row0 rows].
  - intros H. injection H as <-. now split.
  - destruct (forward _ _ _ _). discriminate.
Qed.

(** X1.  [ensemble_f0] returns on well-formed input only: whenever it
    returns, there are a hypothesis and a key shift, all hypotheses have one
    positive number of frames, and the result has that many frames.  On any
    other input it raises. *)
Theorem ensemble_f0_returns_well_formed f0_list key_shift_list tta_uv_penalty
    out :
  ensemble_f0 f0_list key_shift_list tta_uv_penalty = Ok out ->
  exists T, well_formed f0_list key_shift_list T /\ length out = T.
Proof.
  intros H.
  assert (Hwf : exists T, well_formed f0_list key_shift_list T).
  { unfold ensemble_f0 in H.
    destruct (cat_last (map (map to_note) (compensated f0_list key_shift_list)))
      as [notes | e] eqn:Hnotes; [| discriminate].
    destruct (dp_tables (tta_uv_penalty ^ 2) notes) as [[dp bt] | e] eqn:Htab;
      [| discriminate].
    destruct (cat_last (f0_list_after f0_list key_shift_list))
      as [f0s | e] eqn:Hf0s; [| discriminate].
    apply cat_last_inv in Hnotes as (Hne & _ & Hrows).
    apply cat_last_inv in Hf0s as (_ & Hall & _).
    assert (Hf : f0_list <> []).
    { intros ->. apply Hne. reflexivity. }
    assert (Hk : key_shift_list <> []).
    { intros ->. apply Hne. unfold compensated.
      now rewrite combine_nil. }
    destruct f0_list as [| f0 f0_list]; [congruence |].
    destruct key_shift_list as [| k ks]; [congruence |].
    exists (length f0). split; [assumption |]. split; [assumption |]. split.
    + simpl in Hrows. rewrite !length_map in Hrows.
      destruct notes as [| r0 rs]; [discriminate | simpl in Hrows; lia].
    + assert (Hlen : Forall (fun n => n = length f0)
                       (map (@length R) (f0 :: f0_list))).
      { rewrite <- (f0_list_after_lengths (f0 :: f0_list) (k :: ks)).
        apply Forall_map. simpl hd in Hall. simpl in Hall.
        rewrite length_map in Hall. exact Hall. }
      now apply Forall_map in Hlen. }
  destruct Hwf as [T Hwf]. exists T. split; [exact Hwf |].
  destruct (notes_of_ok _ _ _ Hwf) as (notes & Hnotes & _).
  destruct (ensemble_f0_decodes _ _ tta_uv_penalty _ _ Hwf Hnotes)
    as (out' & Hout & Hlen & _).
  rewrite H in Hout. now injection Hout as <-.
Qed.

Lemma ensemble_f0_returns_well_formed_witness :
  ensemble_f0 [[440]] [12] 12 = Ok [220]
  /\ exists T, well_formed [[440]] [12] T /\ length [220] = T.
Proof.
  split; [exact example_single_shifted |].
  apply (ensemble_f0_returns_well_formed [[440]] [12] 12 [220]).
  exact example_single_shifted.
Defined.





(** ** The overwritten [f0_list] *)

(** X5.  The overwriting of [f0_list] keeps the number of its entries,
    leaves the entries beyond the key shifts as they were, and leaves every
    entry whose key shift is 0 as it was. *)
Theorem f0_list_after_frame f0_list key_shift_list :
  length (f0_list_after f0_list key_shift_list) = length f0_list
  /\ (forall c, (length key_shift_list <= c)%nat ->
        nth c (f0_list_after f0_list key_shift_list) [] = nth c f0_list [])
  /\ (forall c, (c < Nat.min (length f0_list) (length key_shift_list))%nat ->
        nth c key_shift_list 0 = 0 ->
        nth c (f0_list_after f0_list key_shift_list) [] = nth c f0_list []).
Proof.
  split; [apply f0_list_after_length |]. split.
  - intros c Hc. unfold f0_list_after.
    destruct (Nat.lt_ge_cases c (length f0_list)) as [Hlt | Hge].
    + rewrite app_nth2 by (rewrite compensated_length; lia).
      rewrite nth_skipn. f_equal. rewrite compensated_length. lia.
    + rewrite !nth_overflow; try reflexivity; try lia.
      rewrite length_app, length_skipn, compensated_length. lia.
  - intros c Hc Hk. rewrite f0_list_after_nth by assumption.
    rewrite Hk. rewrite <- (map_id (nth c f0_list [])) at 2.
    apply map_ext. intros x. apply compensate_0.
Qed.

(** ** Compensation *)

Lemma Rpower_2_pos y : 0 < Rpower 2 y.
Proof. unfold Rpower. apply exp_pos. Qed.

(** X6.  Compensation undoes a transposition: a frequency raised by
    [key_shift] semitones is brought back to itself. *)
Theorem compensate_transposed key_shift f0 :
  compensate key_shift (f0 * Rpower 2 (key_shift / 12)) = f0.
Proof.
  unfold compensate. field. pose proof (Rpower_2_pos (key_shift / 12)). lra.
Qed.

(** X7.  Compensating twice is compensating once by the sum of the two key
    shifts. *)
Theorem compensate_compose k1 k2 f0 :
  compensate k1 (compensate k2 f0) = compensate (k1 + k2) f0.
Proof.
  unfold compensate.
  replace ((k1 + k2) / 12) with (k2 / 12 + k1 / 12) by lra.
  rewrite Rpower_plus. field.
  pose proof (Rpower_2_pos (k1 / 12)). pose proof (Rpower_2_pos (k2 / 12)). lra.
Qed.

(** ** Notes *)

Lemma log2_Rpower y : log2 (Rpower 2 y) = y.
Proof.
  unfold log2, Rpower. rewrite ln_exp. field. pose proof ln_2_pos. lra.
Qed.

Lemma log2_le x y : 0 < x -> x <= y -> log2 x <= log2 y.
Proof.
  intros Hx [Hlt | ->]; [left; now apply log2_lt | right; reflexivity].
Qed.

Lemma to_note_positive f0 :
  0 < f0 ->
  to_note f0
  = if Rlt_dec (log2 (f0 / 440) * 12 + 69) 0 then 0
    else log2 (f0 / 440) * 12 + 69.
Proof.
  intros H. unfold to_note, eq0.
  destruct (Req_dec_T f0 0) as [E | _]; [lra |]. cbn [b2r].
  now replace (f0 + 0 * 1e-6) with f0 by lra.
Qed.

Theorem to_note_nonneg f0 : 0 <= to_note f0.
Proof.
  unfold to_note. destruct (Rlt_dec _ 0) as [H | H]; lra.
Qed.

(** X8.  A frequency counts as unvoiced in the recurrence (its note is not
    positive) exactly when it is at most [440 * 2 ^ (-69/12)] Hz, the
    frequency of note 0; 0 Hz is one of them. *)
Theorem to_note_unvoiced_iff f0 :
  0 <= f0 ->
  (to_note f0 <= 0 <-> f0 <= 440 * Rpower 2 (- 69 / 12)).
Proof.
  intros [Hpos | <-].
  - rewrite to_note_positive by assumption.
    pose proof (Rpower_2_pos (- 69 / 12)) as Hp.
    pose proof (log2_Rpower (- 69 / 12)) as Hl.
    split.
    + intros Hn.
      destruct (Rle_lt_dec f0 (440 * Rpower 2 (- 69 / 12))) as [Hle | Hgt];
        [assumption | exfalso].
      assert (H : log2 (Rpower 2 (- 69 / 12)) < log2 (f0 / 440)).
      { apply log2_lt; [assumption |].
        apply Rmult_lt_reg_r with 440; [lra |].
        replace (f0 / 440 * 440) with f0 by field. lra. }
      destruct (Rlt_dec (log2 (f0 / 440) * 12 + 69) 0); lra.
    + intros Hle.
      assert (H : log2 (f0 / 440) <= log2 (Rpower 2 (- 69 / 12))).
      { apply log2_le.
        - apply Rdiv_lt_0_compat; lra.
        - apply Rmult_le_reg_r with 440; [lra |].
          replace (f0 / 440 * 440) with f0 by field. lra. }
      destruct (Rlt_dec (log2 (f0 / 440) * 12 + 69) 0); lra.
  - rewrite to_note_0. pose proof (Rpower_2_pos (- 69 / 12)). split; intros; lra.
Qed.

Lemma to_note_unvoiced_iff_witness :
  0 <= 0 /\ (to_note 0 <= 0 <-> 0 <= 440 * Rpower 2 (- 69 / 12)).
Proof. split; [lra |]. apply (to_note_unvoiced_iff 0). lra. Defined.

(** X9.  For a voiced frequency, compensation by [key_shift] lowers the note
    by [key_shift], as long as the result is not clamped. *)
Theorem to_note_compensate key_shift f0 :
  0 < f0 -> 0 < to_note f0 -> key_shift <= to_note f0 ->
  to_note (compensate key_shift f0) = to_note f0 - key_shift.
Proof.
  intros Hpos Hn Hk.
  pose proof (Rpower_2_pos (key_shift / 12)) as Hp.
  assert (Hc : 0 < compensate key_shift f0).
  { unfold compensate. apply Rdiv_lt_0_compat; assumption. }
  rewrite (to_note_positive _ Hc).
  rewrite (to_note_positive _ Hpos) in Hn, Hk |- *.
  assert (Hlog : log2 (compensate key_shift f0 / 440)
                 = log2 (f0 / 440) - key_shift / 12).
  { unfold compensate.
    replace (f0 / Rpower 2 (key_shift / 12) / 440)
      with (f0 / 440 * / Rpower 2 (key_shift / 12)) by (field; lra).
    assert (H1 : 0 < f0 / 440) by (apply Rdiv_lt_0_compat; lra).
    assert (H2 : 0 < / Rpower 2 (key_shift / 12))
      by now apply Rinv_0_lt_compat.
    rewrite log2_mult by assumption. rewrite log2_inv by assumption.
    rewrite log2_Rpower. lra. }
  rewrite Hlog.
  destruct (Rlt_dec (log2 (f0 / 440) * 12 + 69) 0) as [H | H]; [lra |].
  destruct (Rlt_dec ((log2 (f0 / 440) - key_shift / 12) * 12 + 69) 0); lra.
Qed.

Lemma to_note_compensate_witness :
  to_note (compensate 12 880) = to_note 880 - 12.
Proof.
  apply (to_note_compensate 12 880); rewrite ?to_note_880; lra.
Defined.

(** X10.  The note does not decrease when the frequency increases. *)
Theorem to_note_monotone f0 f0' :
  0 <= f0 -> f0 <= f0' -> to_note f0 <= to_note f0'.
Proof.
  intros [Hpos | <-] Hle.
  - rewrite !to_note_positive by lra.
    assert (H : log2 (f0 / 440) <= log2 (f0' / 440)).
    { apply log2_le; [apply Rdiv_lt_0_compat; lra |].
      apply Rmult_le_compat_r; lra. }
    destruct (Rlt_dec (log2 (f0 / 440) * 12 + 69) 0);
      destruct (Rlt_dec (log2 (f0' / 440) * 12 + 69) 0); lra.
  - rewrite to_note_0. apply to_note_nonneg.
Qed.

Lemma to_note_monotone_witness : to_note 220 <= to_note 880.
Proof. apply (to_note_monotone 220 880); lra. Defined.

(** ** The sign of the penalty base *)

(** X14.  Only the magnitude of the penalty base matters. *)
Theorem ensemble_f0_penalty_sign f0_list key_shift_list tta_uv_penalty :
  ensemble_f0 f0_list key_shift_list (- tta_uv_penalty)
  = ensemble_f0 f0_list key_shift_list tta_uv_penalty.
Proof.
  unfold ensemble_f0.
  now replace ((- tta_uv_penalty) ^ 2) with (tta_uv_penalty ^ 2) by ring.
Qed.

(** ** Equal hypotheses *)

(** X13.  For a batch of one item: when all hypotheses are the same sequence
    of at least one frame and all key shifts are the same, with the key shift
    and the penalty base within range, the output is that sequence,
    compensated. *)
Theorem ensemble_f0_equal_hypotheses f0_list key_shift_list tta_uv_penalty
    f0 key_shift :
  f0_list <> [] -> key_shift_list <> [] -> f0 <> [] ->
  (forall h, In h f0_list -> h = f0) ->
  (forall k, In k key_shift_list -> k = key_shift) ->
  key_shifts_in_range key_shift_list ->
  penalty_in_range tta_uv_penalty (length f0) ->
  ensemble_f0 f0_list key_shift_list tta_uv_penalty
  = Ok (map (compensate key_shift) f0).
Proof.
  intros Hf Hk Hne Hall Hks _ _.
  assert (Hwf : well_formed f0_list key_shift_list (length f0)).
  { repeat split; try assumption.
    - destruct f0; [congruence | simpl; lia].
    - apply Forall_forall. intros h Hh. now rewrite (Hall h Hh). }
  destruct (notes_of_ok _ _ _ Hwf) as (notes & Hnotes & _).
  destruct (ensemble_f0_decodes _ _ tta_uv_penalty _ _ Hwf Hnotes)
    as (out & -> & Hlen & Hsel).
  f_equal. apply (nth_ext _ _ 0 0); [now rewrite length_map |].
  intros t Ht. rewrite Hlen in Ht. destruct (Hsel t Ht) as [Hc ->].
  rewrite (Hks (nth _ key_shift_list 0)) by (apply nth_In; lia).
  rewrite (Hall (nth _ f0_list [])) by (apply nth_In; lia).
  now rewrite (nth_map_in _ _ _ 0).
Qed.

Lemma ensemble_f0_equal_hypotheses_witness :
  ensemble_f0 [[440; 0]; [440; 0]] [12; 12] 12
  = Ok (map (compensate 12) [440; 0]).
Proof.
  apply (ensemble_f0_equal_hypotheses [[440; 0]; [440; 0]] [12; 12] 12
           [440; 0] 12); try discriminate.
  - intros h [<- | [<- | []]]; reflexivity.
  - intros k [<- | [<- | []]]; reflexivity.
  - repeat constructor; lra.
  - unfold penalty_in_range. simpl. lra.
Defined.

(** ** Invariants of the tables *)







(** ** A hypothesis that is voiced and smooth throughout *)





(** * Further properties of [infer] *)

Lemma returns_only_bind {A B : Type} (m : M A) (f : A -> M B)
    (Q : A -> Prop) (P : B -> Prop) :
  returns_only m Q -> (forall a, Q a -> returns_only (f a) P) ->
  returns_only (bind m f) P.
Proof.
  intros Hm Hf w b w'. unfold bind.
  destruct (m w) as [[a | e] w1] eqn:E; [| discriminate].
  intros H. apply (Hf a (Hm _ _ _ E) _ _ _ H).
Qed.

Lemma returns_only_any {A : Type} (m : M A) : returns_only m (fun _ => True).
Proof. intros w a w' _. exact I. Qed.

Lemma returns_only_ret {A : Type} (a : A) (P : A -> Prop) :
  P a -> returns_only (ret a) P.
Proof. intros H w b w' E. injection E as <- _. exact H. Qed.

Lemma returns_only_raise {A : Type} (e : exn) (P : A -> Prop) :
  returns_only (raise e) P.
Proof. intros w b w' E. discriminate. Qed.

Lemma returns_only_lift {A : Type} (r : result A) (P : A -> Prop) :
  (forall a, r = Ok a -> P a) -> returns_only (lift r) P.
Proof. intros H w a w' E. injection E as E _. now apply H. Qed.

(** ** Resampling *)

Lemma interpolate_nearest_returns n x :
  (0 < n)%nat -> x <> [] ->
  interpolate_nearest n x
  = Ok (map (fun i => nth (i * length x / n) x 0) (seq 0 n)).
Proof.
  intros Hn Hx. unfold interpolate_nearest.
  destruct n; [lia |]. destruct x; [congruence | reflexivity].
Qed.

Lemma interpolate_nearest_ok n x y :
  interpolate_nearest n x = Ok y ->
  (0 < n)%nat /\ x <> [] /\ length y = n
  /\ forall i, (i < n)%nat ->
       (i * length x / n < length x)%nat
       /\ nth i y 0 = nth (i * length x / n) x 0.
Proof.
  intros H.
  assert (Hn : (0 < n)%nat).
  { destruct n; [discriminate | lia]. }
  assert (Hx : x <> []).
  { intros ->. destruct n; discriminate. }
  rewrite interpolate_nearest_returns in H by assumption.
  injection H as <-.
  split; [assumption |]. split; [assumption |].
  split; [now rewrite length_map, length_seq |].
  intros i Hi. split.
  - apply Nat.Div0.div_lt_upper_bound.
    assert (0 < length x)%nat by (destruct x; [congruence | simpl; lia]). nia.
  - rewrite (nth_map_in _ _ _ 0%nat) by now rewrite length_seq.
    now rewrite seq_nth.
Qed.

Lemma interpolate_nearest_Forall (P : R -> Prop) n x y :
  interpolate_nearest n x = Ok y -> Forall P x -> Forall P y.
Proof.
  intros H Hx. apply interpolate_nearest_ok in H as (Hn & _ & Hlen & Hnth).
  rewrite Forall_forall in Hx. apply Forall_forall. intros v Hv.
  apply (In_nth _ _ 0) in Hv as (i & Hi & <-). rewrite Hlen in Hi.
  destruct (Hnth i Hi) as [Hlt ->]. now apply Hx, nth_In.
Qed.

(** ** What the returned tensors satisfy *)

Ltac to_tail :=
  unfold infer;
  eapply returns_only_bind; [apply returns_only_any | intros [? ?] _];
  do 3 (eapply returns_only_bind; [apply returns_only_any | intros ? _]).

(** X18.  When [f0_max] is given, no returned frequency exceeds it. *)
Theorem infer_f0_max_bound gap_fill self a w out w' f0_max_value :
  f0_max a = Some f0_max_value ->
  infer gap_fill self a w = (Ok out, w') ->
  Forall (fun x => x <= f0_max_value) (returned_f0 out).
Proof.
  intros Hmax. revert w out w'.
  change (returns_only (infer gap_fill self a)
            (fun out => Forall (fun x => x <= f0_max_value) (returned_f0 out))).
  to_tail. rewrite Hmax.
  eapply (returns_only_bind _ _ (Forall (fun x => x <= f0_max_value))).
  - assert (Hc : forall xs,
              Forall (fun x => x <= f0_max_value)
                (map (fun x => if Rgt_dec x f0_max_value then f0_max_value
                               else x) xs)).
    { intros xs. apply Forall_forall. intros v Hv.
      apply in_map_iff in Hv as (x & <- & _).
      destruct (Rgt_dec x f0_max_value); lra. }
    destruct (output_interp_target_length a) as [n |].
    + apply returns_only_lift. intros y Hy.
      now apply (interpolate_nearest_Forall _ _ _ _ Hy).
    + now apply returns_only_ret.
  - intros f0 Hf0. destruct (retur_uv a).
    + eapply returns_only_bind; [apply returns_only_any | intros ? _].
      eapply returns_only_bind; [apply returns_only_any | intros ? _].
      now apply returns_only_ret.
    + now apply returns_only_ret.
Qed.

(** X19.  When a target length is given and [infer] returns, the length is
    positive and the frequencies, and the mask if there is one, have exactly
    that many frames. *)
Theorem infer_target_length gap_fill self a w out w' n :
  output_interp_target_length a = Some n ->
  infer gap_fill self a w = (Ok out, w') ->
  (0 < n)%nat
  /\ length (returned_f0 out) = n
  /\ forall uv, returned_uv out = Some uv -> length uv = n.
Proof.
  intros Hn. revert w out w'.
  change (returns_only (infer gap_fill self a)
            (fun out => (0 < n)%nat /\ length (returned_f0 out) = n
                        /\ forall uv, returned_uv out = Some uv ->
                                      length uv = n)).
  to_tail. rewrite Hn.
  eapply (returns_only_bind _ _ (fun f0 => (0 < n)%nat /\ length f0 = n)).
  - apply returns_only_lift. intros y Hy.
    apply interpolate_nearest_ok in Hy as (? & _ & ? & _). now split.
  - intros f0 [Hpos Hf0]. destruct (retur_uv a).
    + apply returns_only_bind with (Q := fun k => k = n);
        [apply returns_only_ret; reflexivity | intros k ->].
      eapply (returns_only_bind _ _ (fun uv => length uv = n)).
      * apply returns_only_lift. intros y Hy.
        now apply interpolate_nearest_ok in Hy as (_ & _ & ? & _).
      * intros uv Huv. apply returns_only_ret. simpl.
        split; [assumption |]. split; [assumption |].
        intros uv' E. now injection E as <-.
    + apply returns_only_ret. simpl.
      split; [assumption |]. split; [assumption | discriminate].
Qed.

(** X20.  [infer] returns a mask exactly when [retur_uv] is set, and the
    entries of a returned mask are 0 or 1. *)
Theorem infer_returned_mask gap_fill self a w out w' :
  infer gap_fill self a w = (Ok out, w') ->
  if retur_uv a
  then exists uv, returned_uv out = Some uv
                  /\ Forall (fun u => u = 0 \/ u = 1) uv
  else returned_uv out = None.
Proof.
  revert w out w'.
  change (returns_only (infer gap_fill self a)
            (fun out =>
               if retur_uv a
               then exists uv, returned_uv out = Some uv
                               /\ Forall (fun u => u = 0 \/ u = 1) uv
               else returned_uv out = None)).
  to_tail.
  eapply returns_only_bind; [apply returns_only_any | intros f0 _].
  destruct (retur_uv a).
  - eapply returns_only_bind; [apply returns_only_any | intros k _].
    eapply (returns_only_bind _ _ (Forall (fun u => u = 0 \/ u = 1))).
    + apply returns_only_lift. intros y Hy.
      apply (interpolate_nearest_Forall _ _ _ _ Hy).
      apply Forall_forall. intros v Hv.
      apply in_map_iff in Hv as (x & <- & _).
      destruct (Rlt_dec x _); cbn [b2r]; auto.
    + intros uv Huv. apply returns_only_ret. now exists uv.
  - now apply returns_only_ret.
Qed.

(** ** Extractions and list objects *)

(** X15.  Without test-time augmentation [infer] leaves every list object as
    it was and invokes the extractor once, at key shift 0, whether it returns
    or raises. *)
Theorem infer_without_augmentation gap_fill self a w :
  test_time_augmentation a = false ->
  lists (snd (infer gap_fill self a w)) = lists w
  /\ calls (snd (infer gap_fill self a w)) = calls w ++ [0%Q].
Proof.
  intros Htta.
  apply (stable_after_bind
           (fun w' => lists w' = lists w /\ calls w' = calls w ++ [0%Q])).
  - rewrite Htta. unfold bind, call_model, ret. simpl. now split.
  - intros [f0 f0_list]. rewrite Htta. simpl.
    repeat stable_step.
Qed.

(** X16.  With test-time augmentation on a non-empty list, the extractor is
    invoked once per key shift, in sorted order, and not again, unless the
    voicing of the unshifted estimate is requested and the first sorted shift
    is not 0. *)
Theorem infer_augmentation_calls gap_fill self a w :
  test_time_augmentation a = true ->
  lists w (tta_key_shifts a) <> [] ->
  tta_use_origin_uv a = false
  \/ Qeq_bool (hd 0%Q (sort_by_key (lists w (tta_key_shifts a)))) 0 = true ->
  calls (snd (infer gap_fill self a w))
  = calls w ++ sort_by_key (lists w (tta_key_shifts a)).
Proof.
  intros Htta Hne Hcase.
  set (sorted := sort_by_key (lists w (tta_key_shifts a))) in *.
  assert (H : lists (snd (infer gap_fill self a w)) (tta_key_shifts a) = sorted
              /\ calls (snd (infer gap_fill self a w)) = calls w ++ sorted);
    [| apply H].
  apply (stable_after_bind
           (fun w' => lists w' (tta_key_shifts a) = sorted
                      /\ calls w' = calls w ++ sorted)).
  - rewrite Htta.
    erewrite bind_ok by reflexivity.
    destruct (lists w (tta_key_shifts a)) as [| s0 shifts] eqn:Hl;
      [congruence |].
    erewrite bind_ok by reflexivity.
    erewrite bind_ok by reflexivity.
    erewrite bind_ok.
    2:{ unfold read_list, write_list. simpl. rewrite Nat.eqb_refl.
        reflexivity. }
    erewrite bind_ok by apply mapM_call_model.
    unfold bind, lift, ret.
    destruct (ensemble_f0 _ _ _); simpl; rewrite Nat.eqb_refl; now split.
  - intros [f0 f0_list]. rewrite Htta. simpl.
    apply stable_bind.
    + destruct Hcase as [-> | Hhead].
      * apply pure_stable, pure_ret.
      * destruct (tta_use_origin_uv a); [| apply pure_stable, pure_ret].
        intros w1 [Hl1 Hc1]. unfold bind, read_list. rewrite Hl1.
        destruct sorted as [| s0 rest]; [now split |].
        simpl in Hhead. rewrite Hhead.
        destruct f0_list; now split.
    + intros f0_for_uv. repeat stable_step.
Qed.

(** ** The voicing floor *)

(** X17.  When neither the caller nor the configuration of the model gives
    [f0_min], [infer] never returns; without augmentation it raises
    [KeyError] after the one extraction. *)
Theorem infer_without_f0_min gap_fill self a w :
  f0_min a = None ->
  args_model_f0_min self = None ->
  (forall out, fst (infer gap_fill self a w) <> Ok out)
  /\ (test_time_augmentation a = false ->
        infer gap_fill self a w
        = (Raise KeyError, {| lists := lists w; calls := calls w ++ [0%Q] |})).
Proof.
  intros Hmin Hmodel. split.
  - revert w. unfold infer. rewrite Hmin, Hmodel.
    match goal with
    | |- forall w out, fst (?m w) <> Ok out => change (never_returns m)
    end.
    apply never_returns_bind. intros [f0 f0_list].
    apply never_returns_bind. intros f0_for_uv.
    intros w out. discriminate.
  - intros Htta. unfold infer. rewrite Htta, Hmin, Hmodel. reflexivity.
Qed.

Lemma mul_tensor_threshold f0_min_value raw :
  mul_tensor raw
    (map (fun u => 1 - u)
       (map (fun x => b2r (if Rlt_dec x f0_min_value then true else false))
            raw))
  = Ok (map (fun x => if Rlt_dec x f0_min_value then 0 else x) raw).
Proof.
  unfold mul_tensor. rewrite !length_map, Nat.eqb_refl. f_equal.
  induction raw as [| x raw IH]; simpl; [reflexivity |].
  rewrite IH. f_equal. destruct (Rlt_dec x f0_min_value); cbn [b2r]; lra.
Qed.

(** X21.  Without augmentation, gap filling, resampling and mask, [infer]
    returns the raw estimate with every frame below [f0_min] set to 0 and
    every frame above [f0_max] set to [f0_max]. *)
Theorem infer_plain gap_fill self a w f0_min_value :
  test_time_augmentation a = false ->
  interp_uv a = false ->
  output_interp_target_length a = None ->
  retur_uv a = false ->
  f0_min a = Some f0_min_value
  \/ (f0_min a = None /\ args_model_f0_min self = Some f0_min_value) ->
  infer gap_fill self a w
  = (Ok (F0 (map (fun x =>
                    let y := if Rlt_dec x f0_min_value then 0 else x in
                    match f0_max a with
                    | Some f0_max_value =>
                        if Rgt_dec y f0_max_value then f0_max_value else y
                    | None => y
                    end)
                 (call self (wav a) (sr a) (decoder_mode a) (threshold a)
                       0%Q))),
     {| lists := lists w; calls := calls w ++ [0%Q] |}).
Proof.
  intros Htta Hinterp Hlen Huv Hmin.
  unfold infer. rewrite Htta, Hinterp, Hlen, Huv.
  assert (Hm : (match f0_min a with
                | Some m => ret m
                | None => match args_model_f0_min self with
                          | Some m => ret m
                          | None => raise KeyError
                          end
                end) = ret f0_min_value).
  { destruct Hmin as [-> | [-> ->]]; reflexivity. }
  rewrite Hm. unfold bind, call_model, ret, lift. simpl.
  rewrite mul_tensor_threshold.
  destruct (f0_max a); [rewrite map_map |]; reflexivity.
Qed.

(** ** The properties above on concrete calls *)

(** Two calls that return: one that clamps, one that resamples three frames
    to six and returns the mask. *)
Lemma example_clamped :
  exists out w',
    infer no_gap_fill ramp_self clamp_args stub_world = (Ok out, w').
Proof.
  unfold infer. simpl. unfold bind, call_model, ret, lift. simpl.
  unfold mul_tensor. simpl. eexists. eexists. reflexivity.
Qed.

Lemma example_resampled :
  exists f0 uv,
    infer no_gap_fill ramp_self resample_args stub_world
    = (Ok (F0_UV f0 uv), {| lists := lists stub_world; calls := [0%Q] |}).
Proof.
  unfold infer. simpl. unfold bind, call_model, ret, lift, py_int. simpl.
  unfold mul_tensor. simpl. eexists. eexists. reflexivity.
Qed.

Lemma infer_f0_max_bound_witness :
  exists out w',
    infer no_gap_fill ramp_self clamp_args stub_world = (Ok out, w')
    /\ Forall (fun x => x <= 500) (returned_f0 out).
Proof.
  destruct example_clamped as (out & w' & H).
  exists out, w'. split; [exact H |].
  exact (infer_f0_max_bound no_gap_fill ramp_self clamp_args stub_world
           _ _ 500 eq_refl H).
Defined.

Lemma infer_target_length_witness :
  exists out w',
    infer no_gap_fill ramp_self resample_args stub_world = (Ok out, w')
    /\ length (returned_f0 out) = 6%nat.
Proof.
  destruct example_resampled as (f0 & uv & H).
  destruct (infer_target_length no_gap_fill ramp_self resample_args
              stub_world _ _ 6 eq_refl H) as (_ & Hl & _).
  eexists. eexists. split; [exact H | exact Hl].
Defined.

Lemma infer_returned_mask_witness :
  exists out w' uv,
    infer no_gap_fill ramp_self resample_args stub_world = (Ok out, w')
    /\ returned_uv out = Some uv
    /\ Forall (fun u => u = 0 \/ u = 1) uv.
Proof.
  destruct example_resampled as (f0 & uv & H).
  destruct (infer_returned_mask no_gap_fill ramp_self resample_args
              stub_world _ _ H) as (uv' & Huv & Hbin).
  exists (F0_UV f0 uv), {| lists := lists stub_world; calls := [0%Q] |}, uv'.
  repeat split; assumption.
Defined.

Lemma infer_without_augmentation_witness :
  test_time_augmentation uv_args = false
  /\ calls (snd (infer no_gap_fill stub_self uv_args stub_world)) = [0%Q].
Proof.
  split; [reflexivity |].
  apply (infer_without_augmentation no_gap_fill stub_self uv_args stub_world).
  reflexivity.
Defined.

Lemma infer_augmentation_calls_witness :
  calls (snd (infer no_gap_fill stub_self (tta_args 2) stub_world))
  = [0; -(12); 12]%Q.
Proof.
  apply (infer_augmentation_calls no_gap_fill stub_self (tta_args 2)
           stub_world).
  - reflexivity.
  - discriminate.
  - now left.
Defined.

Lemma infer_without_f0_min_witness :
  infer no_gap_fill bare_self (default_args [0; 0] 16000) stub_world
  = (Raise KeyError, {| lists := lists stub_world; calls := [0%Q] |}).
Proof.
  apply (infer_without_f0_min no_gap_fill bare_self (default_args [0; 0] 16000)
           stub_world); reflexivity.
Defined.

Lemma infer_plain_witness :
  infer no_gap_fill ramp_self clamp_args stub_world
  = (Ok (F0 (map (fun x =>
                    let y := if Rlt_dec x 50 then 0 else x in
                    if Rgt_dec y 500 then 500 else y)
                 [0; 440; 880])),
     {| lists := lists stub_world; calls := [0%Q] |}).
Proof.
  apply (infer_plain no_gap_fill ramp_self clamp_args stub_world 50);
    try reflexivity.
  now left.
Defined.

(** X29.  After [infer] with test-time augmentation the list object holds
    the key shifts it held before, in ascending order of the key. *)
Theorem infer_key_shifts_sorted gap_fill self a w :
  test_time_augmentation a = true ->
  Permutation (lists (snd (infer gap_fill self a w)) (tta_key_shifts a))
              (lists w (tta_key_shifts a))
  /\ Sorted (fun u v => (sort_key u <= sort_key v)%Q)
            (lists (snd (infer gap_fill self a w)) (tta_key_shifts a)).
Proof.
  intros Htta. rewrite infer_tta_lists by assumption.
  rewrite Nat.eqb_refl. split.
  - apply sort_by_key_perm.
  - apply sort_by_key_sorted.
Qed.

Lemma infer_key_shifts_sorted_witness :
  Permutation
    (lists (snd (infer no_gap_fill stub_self (tta_args 2) stub_world)) 2)
    [12; -(12); 0]%Q.
Proof.
  apply (infer_key_shifts_sorted no_gap_fill stub_self (tta_args 2) stub_world).
  reflexivity.
Defined.

(** * Properties of the spawning functions *)

Lemma dict_get_set_same items key x :
  dict_get (dict_set items key x) key = Some x.
Proof.
  induction items as [| [k v] items IH]; simpl.
  - now rewrite String.eqb_refl.
  - destruct (String.eqb key k) eqn:E; simpl; rewrite E; [reflexivity | exact IH].
Qed.

Lemma dict_get_set_other items key key' x :
  key' <> key ->
  dict_get (dict_set items key x) key' = dict_get items key'.
Proof.
  intros Hne. induction items as [| [k v] items IH]; simpl.
  - apply String.eqb_neq in Hne. now rewrite Hne.
  - destruct (String.eqb key k) eqn:E; simpl.
    + apply String.eqb_eq in E. subst k.
      apply String.eqb_neq in Hne. now rewrite Hne.
    + destruct (String.eqb key' k); [reflexivity | exact IH].
Qed.

(** X23.  [spawn_infer_model_from_onnx] never returns a model. *)
Theorem spawn_infer_model_from_onnx_never_returns (Model : Type)
    get_device load_config dot onnx_path device (model : Model) :
  spawn_infer_model_from_onnx get_device load_config dot onnx_path device
  <> Returned model.
Proof.
  unfold spawn_infer_model_from_onnx, obind, InferCFNaiveMelPEONNX_init.
  destruct (get_device _ _); [| discriminate].
  destruct (load_config _) as [args |]; [| discriminate].
  destruct (dot args "is_onnx"%string) as [is_onnx |]; [| discriminate].
  destruct (is_none is_onnx || is_false is_onnx); [discriminate |].
  destruct (dot args "model"%string) as [m |]; [| discriminate].
  destruct (dot m "type"%string) as [t |]; [| discriminate].
  destruct (eq_str t _); discriminate.
Qed.

Lemma spawn_infer_model_from_onnx_never_returns_witness :
  @spawn_infer_model_from_onnx nat stub_get_device
    (fun _ => Returned onnx_config) stub_dot "model.onnx" None
  <> Returned 0%nat.
Proof.
  apply (spawn_infer_model_from_onnx_never_returns nat stub_get_device
           (fun _ => Returned onnx_config) stub_dot "model.onnx" None 0%nat).
Defined.

(** X24.  [spawn_infer_model_from_onnx] rejects a configuration whose
    [is_onnx] is [None] or [False] with [ValueError]; with [is_onnx] set it
    raises [NotImplementedError] for the type [CFNaiveMelPEONNX] and
    [ValueError] for every other type. *)
Theorem spawn_infer_model_from_onnx_errors (Model : Type)
    get_device load_config dot onnx_path device d args is_onnx :
  get_device device
    "torchfcpe.tools.spawn_infer_cf_naive_mel_pe_from_onnx"%string
  = Returned d ->
  load_config onnx_path = Returned args ->
  dot args "is_onnx"%string = Returned is_onnx ->
  (is_onnx = JNull \/ is_onnx = JBool false ->
   @spawn_infer_model_from_onnx Model get_device load_config dot onnx_path
     device = Raised ValueError)
  /\ (forall m t,
        is_onnx = JBool true ->
        dot args "model"%string = Returned m ->
        dot m "type"%string = Returned t ->
        @spawn_infer_model_from_onnx Model get_device load_config dot
          onnx_path device
        = Raised (if eq_str t "CFNaiveMelPEONNX" then NotImplementedError
                  else ValueError)).
Proof.
  intros Hd Hc Hi. unfold spawn_infer_model_from_onnx, obind.
  rewrite Hd, Hc, Hi. split.
  - intros [-> | ->]; reflexivity.
  - intros m t -> Hm Ht. simpl. rewrite Hm, Ht.
    now destruct (eq_str t _).
Qed.

Lemma spawn_infer_model_from_onnx_errors_witness :
  @spawn_infer_model_from_onnx nat stub_get_device
    (fun _ => Returned onnx_config) stub_dot "model.onnx" None
  = Raised NotImplementedError.
Proof.
  destruct (spawn_infer_model_from_onnx_errors nat stub_get_device
              (fun _ => Returned onnx_config) stub_dot "model.onnx" None
              "cpu" onnx_config (JBool true) eq_refl eq_refl eq_refl)
    as [_ H].
  apply (H (JDict [("type"%string, JStr "CFNaiveMelPEONNX")])
           (JStr "CFNaiveMelPEONNX")); reflexivity.
Defined.

(** X25.  What [spawn_infer_model_from_pt] returns was built by the
    constructor from the configuration and the state of the checkpoint, and
    that configuration is not flagged as ONNX and has the type
    [CFNaiveMelPE]. *)
Theorem spawn_infer_model_from_pt_returns (State Model : Type)
    get_device torch_load dot
    (construct : json -> State -> string -> outcome Model)
    pt_path device bundled_model (model : Model) :
  spawn_infer_model_from_pt get_device torch_load dot construct pt_path
    device bundled_model = Returned model ->
  exists d ckpt args is_onnx m state,
    get_device device
      "torchfcpe.tools.spawn_infer_cf_naive_mel_pe_from_pt"%string
    = Returned d
    /\ torch_load pt_path d = Returned ckpt
    /\ checkpoint_config ckpt bundled_model = Returned args
    /\ dot args "is_onnx"%string = Returned is_onnx
    /\ is_onnx <> JBool true
    /\ dot args "model"%string = Returned m
    /\ dot m "type"%string = Returned (JStr "CFNaiveMelPE")
    /\ ckpt_model ckpt = Some state
    /\ construct args state d = Returned model.
Proof.
  unfold spawn_infer_model_from_pt, obind.
  destruct (get_device _ _) as [d |] eqn:Hd; [| discriminate].
  destruct (torch_load _ _) as [ckpt |] eqn:Hl; [| discriminate].
  destruct (checkpoint_config _ _) as [args |] eqn:Hc; [| discriminate].
  destruct (dot args "is_onnx"%string) as [is_onnx |] eqn:Hi; [| discriminate].
  destruct (negb (is_none is_onnx) && is_true is_onnx) eqn:Hgate;
    [discriminate |].
  destruct (dot args "model"%string) as [m |] eqn:Hm; [| discriminate].
  destruct (dot m "type"%string) as [t |] eqn:Ht; [| discriminate].
  destruct (eq_str t _) eqn:Hty; [| discriminate].
  destruct (ckpt_model ckpt) as [state |] eqn:Hs; [| discriminate].
  simpl. intros H.
  exists d, ckpt, args, is_onnx, m, state.
  repeat split; try assumption.
  - intros ->. discriminate.
  - destruct t; try discriminate. simpl in Hty.
    apply String.eqb_eq in Hty. now subst.
Qed.

Lemma spawn_infer_model_from_pt_returns_witness :
  exists model args,
    spawn_infer_model_from_pt stub_get_device
      (fun _ _ => Returned pt_checkpoint) stub_dot stub_construct
      "model.pt" None true
    = Returned model
    /\ checkpoint_config pt_checkpoint true = Returned args
    /\ stub_construct args 7%nat "cpu" = Returned model.
Proof.
  assert (H : exists model,
            spawn_infer_model_from_pt stub_get_device
              (fun _ _ => Returned pt_checkpoint) stub_dot stub_construct
              "model.pt" None true
            = Returned model) by (eexists; reflexivity).
  destruct H as [model H].
  destruct (spawn_infer_model_from_pt_returns nat (json * nat) stub_get_device
              (fun _ _ => Returned pt_checkpoint) stub_dot stub_construct
              "model.pt" None true model H)
    as (d & ckpt & args & is_onnx & m & state
        & Hd & Hl & Hc & _ & _ & _ & _ & Hs & Hcons).
  injection Hd as <-. injection Hl as <-. injection Hs as <-.
  exists model, args. repeat split; assumption.
Defined.

(** X26.  [spawn_infer_model_from_pt] raises [ValueError] for a configuration
    flagged as ONNX, and for one whose type is not [CFNaiveMelPE]. *)
Theorem spawn_infer_model_from_pt_rejects (State Model : Type)
    get_device torch_load dot
    (construct : json -> State -> string -> outcome Model)
    pt_path device bundled_model d ckpt args is_onnx :
  get_device device
    "torchfcpe.tools.spawn_infer_cf_naive_mel_pe_from_pt"%string
  = Returned d ->
  torch_load pt_path d = Returned ckpt ->
  checkpoint_config ckpt bundled_model = Returned args ->
  dot args "is_onnx"%string = Returned is_onnx ->
  (is_onnx = JBool true ->
   spawn_infer_model_from_pt get_device torch_load dot construct pt_path
     device bundled_model = Raised ValueError)
  /\ (forall m t,
        is_onnx <> JBool true ->
        dot args "model"%string = Returned m ->
        dot m "type"%string = Returned t ->
        t <> JStr "CFNaiveMelPE" ->
        spawn_infer_model_from_pt get_device torch_load dot construct pt_path
          device bundled_model = Raised ValueError).
Proof.
  intros Hd Hl Hc Hi. unfold spawn_infer_model_from_pt, obind.
  rewrite Hd, Hl, Hc, Hi. split.
  - intros ->. reflexivity.
  - intros m t Hne Hm Ht Hty.
    assert (Hgate : negb (is_none is_onnx) && is_true is_onnx = false).
    { destruct is_onnx as [| [|] | | | |]; try reflexivity. congruence. }
    rewrite Hgate, Hm, Ht.
    assert (Hf : eq_str t "CFNaiveMelPE" = false).
    { destruct t; try reflexivity. simpl.
      apply String.eqb_neq. congruence. }
    now rewrite Hf.
Qed.

Lemma spawn_infer_model_from_pt_rejects_witness :
  spawn_infer_model_from_pt stub_get_device
    (fun _ _ => Returned onnx_checkpoint) stub_dot stub_construct
    "model.pt" None false
  = Raised ValueError.
Proof.
  destruct (spawn_infer_model_from_pt_rejects nat (json * nat) stub_get_device
              (fun _ _ => Returned onnx_checkpoint) stub_dot stub_construct
              "model.pt" None false "cpu" onnx_checkpoint onnx_config
              (JBool true) eq_refl eq_refl eq_refl eq_refl)
    as [H _].
  now apply H.
Defined.

(** X27.  For a bundled model the configuration handed on has both dropouts
    at 0.0, and every other entry of the model section and of the
    configuration is as in the checkpoint. *)
Theorem checkpoint_config_bundled (State : Type) (ckpt : checkpoint State)
    items model_items :
  ckpt_config_dict ckpt = Some (JDict items) ->
  dict_get items "model" = Some (JDict model_items) ->
  exists items' model_items',
    checkpoint_config ckpt true = Returned (JDict items')
    /\ dict_get items' "model" = Some (JDict model_items')
    /\ dict_get model_items' "conv_dropout" = Some (JNum 0)
    /\ dict_get model_items' "atten_dropout" = Some (JNum 0)
    /\ (forall key, key <> "conv_dropout"%string ->
          key <> "atten_dropout"%string ->
          dict_get model_items' key = dict_get model_items key)
    /\ (forall key, key <> "model"%string ->
          dict_get items' key = dict_get items key).
Proof.
  intros Hcfg Hmodel. unfold checkpoint_config, set_model_entry, obind.
  rewrite Hcfg. simpl. rewrite Hmodel. simpl.
  rewrite dict_get_set_same. simpl.
  eexists. eexists. split; [reflexivity |].
  split; [apply dict_get_set_same |].
  split; [rewrite dict_get_set_other by discriminate; apply dict_get_set_same |].
  split; [apply dict_get_set_same |]. split.
  - intros key H1 H2. now rewrite !dict_get_set_other.
  - intros key H. now rewrite !dict_get_set_other.
Qed.

Lemma checkpoint_config_bundled_witness :
  exists items' model_items',
    checkpoint_config pt_checkpoint true = Returned (JDict items')
    /\ dict_get items' "model" = Some (JDict model_items')
    /\ dict_get model_items' "conv_dropout" = Some (JNum 0)
    /\ dict_get model_items' "type" = Some (JStr "CFNaiveMelPE").
Proof.
  destruct (checkpoint_config_bundled nat pt_checkpoint _ _ eq_refl eq_refl)
    as (items' & model_items' & H & Hm & Hc & _ & Hother & _).
  exists items', model_items'. repeat split; try assumption.
  rewrite Hother by discriminate. reflexivity.
Defined.

(** X28.  A checkpoint without a config_dict entry raises [KeyError]; one whose
    configuration has no model section raises [KeyError] when it is loaded
    as a bundled model and is read as it is otherwise. *)
Theorem checkpoint_config_bundled_without_model (State : Type)
    (ckpt : checkpoint State) :
  (ckpt_config_dict ckpt = None ->
   checkpoint_config ckpt true = Raised (Builtin KeyError)
   /\ checkpoint_config ckpt false = Raised (Builtin KeyError))
  /\ (forall items,
        ckpt_config_dict ckpt = Some (JDict items) ->
        dict_get items "model" = None ->
        checkpoint_config ckpt true = Raised (Builtin KeyError)
        /\ checkpoint_config ckpt false = Returned (JDict items)).
Proof.
  split.
  - intros H. unfold checkpoint_config. rewrite H. now split.
  - intros items Hcfg Hmodel. unfold checkpoint_config, set_model_entry, obind.
    rewrite Hcfg. simpl. rewrite Hmodel. now split.
Qed.

Lemma checkpoint_config_bundled_without_model_witness :
  checkpoint_config
    {| ckpt_config_dict := Some (JDict [("is_onnx"%string, JNull)]);
       ckpt_model := Some 7%nat |} true
  = Raised (Builtin KeyError).
Proof.
  destruct (checkpoint_config_bundled_without_model nat
              {| ckpt_config_dict := Some (JDict [("is_onnx"%string, JNull)]);
                 ckpt_model := Some 7%nat |})
    as [_ H].
  now destruct (H _ eq_refl eq_refl).
Defined.
